(** * JetPointNet: masked losses, masking layer, regulariser and the
      PointNet segmentation model

    A shallow embedding of [python_scripts/jets_training/models/JetPointNet.py].

    Conventions of the embedding.
    - A [float32] tensor entry is a real number ([R]): the development is about
      the arithmetic the code writes down, not about IEEE rounding, infinities
      or NaN.  Where float32 would produce an infinity or a NaN (a division by
      zero, the reduction of an empty tensor) the place is marked.
    - A tensor is a nested list in row-major order: rank 1 is [list R], rank 2
      is [list (list R)], rank 3 is [list (list (list R))].
    - Label and prediction tensors of the losses have shape
      (batch, points, 1): [tf.squeeze(..., axis=-1)] in the losses demands the
      unit axis.  They are kept as rank-2 tensors (batch, points), one real per
      point, and the Keras per-sample losses, which average over that unit
      axis, are the per-point error itself.
    - The model is run in inference mode: [BatchNormalization] uses its moving
      statistics and [Dropout] is the identity.  The trained weights are an
      explicit argument. *)

From Stdlib Require Import Reals Lra Lia List Permutation Arith Bool.
From Stdlib Require Ascii String DecimalString.
Import ListNotations.
Local Open Scope R_scope.

(** ** Tensor primitives *)

Definition vector := list R.
Definition matrix := list (list R).
Definition tensor3 := list (list (list R)).

(** Element-wise combination of two lists; it stops at the shorter one
    (TensorFlow raises on shapes that neither agree nor broadcast). *)
Fixpoint map2 {A B C : Type} (f : A -> B -> C) (la : list A) (lb : list B) : list C :=
  match la, lb with
  | a :: la', b :: lb' => f a b :: map2 f la' lb'
  | _, _ => []
  end.

Definition tmap {A B : Type} (f : A -> B) (t : list (list A)) : list (list B) :=
  map (map f) t.

Definition tmap2 {A B C : Type} (f : A -> B -> C)
  (t : list (list A)) (u : list (list B)) : list (list C) :=
  map2 (map2 f) t u.

(** [tf.reduce_sum] of a rank-1 tensor and of a rank-2 tensor (all entries). *)
Definition reduce_sum1 (l : vector) : R := fold_right Rplus 0 l.
Definition reduce_sum (t : matrix) : R := reduce_sum1 (concat t).

(** Comparisons as TensorFlow's boolean tensors. *)
Definition Rltb (x y : R) : bool := if Rlt_dec x y then true else false.
Definition Rleb (x y : R) : bool := if Rle_dec x y then true else false.
Definition Reqb (x y : R) : bool := if Req_dec_T x y then true else false.

(** [tf.not_equal(t, c)], [tf.equal(t, c)] and [tf.cast(_, tf.float32)]. *)
Definition tf_not_equal (t : matrix) (c : R) : list (list bool) :=
  tmap (fun x => negb (Reqb x c)) t.
Definition tf_equal (t : matrix) (c : R) : list (list bool) :=
  tmap (fun x => Reqb x c) t.
Definition cast_float32 (b : bool) : R := if b then 1 else 0.
Definition tf_cast (t : list (list bool)) : matrix := tmap cast_float32 t.

(** [tf.boolean_mask(tensor, mask)] with a numeric mask: the entries whose mask
    is non-zero, in row-major order. *)
Definition mask_row (row mrow : vector) : vector :=
  map fst (filter (fun tm => negb (Reqb (snd tm) 0)) (combine row mrow)).
Definition boolean_mask (tensor mask : matrix) : vector :=
  concat (map2 mask_row tensor mask).

(** [tf.reduce_max] and [tf.reduce_min] of a non-empty rank-1 tensor. *)
Definition reduce_max (v : R) (rest : vector) : R := fold_left Rmax rest v.
Definition reduce_min (v : R) (rest : vector) : R := fold_left Rmin rest v.

(** [tf.clip_by_value]. *)
Definition clip_by_value (x lo hi : R) : R := Rmin (Rmax x lo) hi.

(** ** CustomMaskingLayer *)

Module CustomMaskingLayer.

(** [inputs[:, :, -1]]: the last feature of every point.  A point without
    features has none, and the slice raises. *)
Definition last_feature (p : vector) : option R :=
  match rev p with
  | [] => None
  | x :: _ => Some x
  end.

Fixpoint slice_last_row (row : matrix) : option vector :=
  match row with
  | [] => Some []
  | p :: row' =>
      match last_feature p, slice_last_row row' with
      | Some x, Some xs => Some (x :: xs)
      | _, _ => None
      end
  end.

Fixpoint slice_last (inputs : tensor3) : option matrix :=
  match inputs with
  | [] => Some []
  | row :: inputs' =>
      match slice_last_row row, slice_last inputs' with
      | Some r, Some rs => Some (r :: rs)
      | _, _ => None
      end
  end.

(** [tf.expand_dims(mask, -1)]. *)
Definition expand_dims_last (m : matrix) : tensor3 := tmap (fun x => [x]) m.

(** [inputs * mask] where the mask has a unit last axis that broadcasts over
    the features. *)
Definition mul_point (p m : vector) : vector :=
  match m with
  | [m0] => map (fun x => x * m0) p
  | _ => map2 Rmult p m
  end.
Definition multiply_broadcast (inputs mask : tensor3) : tensor3 :=
  tmap2 mul_point inputs mask.

Definition call (inputs : tensor3) : option tensor3 :=
  match slice_last inputs with
  | None => None
  | Some types =>
      let mask := tf_not_equal types (-1) in
      let mask := tf_cast mask in
      let mask := expand_dims_last mask in
      Some (multiply_broadcast inputs mask)
  end.

Definition compute_output_shape (input_shape : list nat) : list nat := input_shape.

End CustomMaskingLayer.

(** The shape (batch, points, features) of a rank-3 tensor given as nested
    lists. *)
Definition has_shape3 (b n f : nat) (t : tensor3) : Prop :=
  length t = b /\
  Forall (fun row => length row = n /\ Forall (fun p : vector => length p = f) row) t.

(** ** Activations *)

(** [tf.sign]. *)
Definition tf_sign (x : R) : R :=
  if Rltb x 0 then -1 else if Rltb 0 x then 1 else 0.

(** [tf.where(c, a, b)] on one entry. *)
Definition tf_where (c : bool) (a b : R) : R := if c then a else b.

Definition rectified_TSSR_Activation (x : R) : R :=
  let a := 0.01 in
  let b := 0.1 in
  let negative_condition := Rltb x 0 in
  let small_positive_condition := andb (Rleb 0 x) (Rltb x 1) in
  let negative_part := a * x in
  let small_positive_part := x in
  let large_positive_part := tf_sign x * (b * sqrt (Rabs x) - b + 1) in
  tf_where negative_condition negative_part
    (tf_where small_positive_condition small_positive_part large_positive_part).

(** The Keras activation ["sigmoid"]. *)
Definition sigmoid (x : R) : R := 1 / (1 + exp (- x)).

Definition relu (x : R) : R := Rmax x 0.

(** ** Losses *)

(** The sentinel label: a point whose label is exactly [-1.0] is left out of
    the loss and of the accuracy. *)
Definition sentinel : R := -1.0.

(** Keras per-sample losses on a unit last axis (the mean over one entry). *)
Definition mean_squared_error (y_true y_pred : R) : R := (y_pred - y_true) ^ 2.

Definition mean_absolute_error (y_true y_pred : R) : R := Rabs (y_pred - y_true).

(** [tf.keras.losses.Huber(delta, reduction=NONE)]. *)
Definition huber (delta y_true y_pred : R) : R :=
  let error := y_pred - y_true in
  let abs_error := Rabs error in
  let half := 0.5 in
  tf_where (Rleb abs_error delta) (half * error ^ 2)
    (delta * abs_error - half * delta ^ 2).

(** [tf.keras.losses.binary_crossentropy(..., from_logits=False)]: the
    prediction is clipped to [epsilon, 1 - epsilon] with Keras's fuzz factor
    [epsilon = 1e-7]. *)
Definition binary_crossentropy (y_true y_pred : R) : R :=
  let epsilon := 1e-7 in
  let output := clip_by_value y_pred epsilon (1 - epsilon) in
  - (y_true * ln (output + epsilon) + (1 - y_true) * ln (1 - output + epsilon)).

(** [tf.cast(tf.not_equal(y_true, -1.0), tf.float32)]; the losses squeeze the
    unit axis, which the rank-2 representation has already dropped. *)
Definition valid_mask (y_true : matrix) : matrix :=
  tf_cast (tf_not_equal y_true sentinel).

(** [tf.maximum(tf.reduce_max(v) - tf.reduce_min(v), 1e-5)].  Of an empty
    tensor float32 gives [reduce_max = -inf] and [reduce_min = +inf], so the
    difference is [-inf] and the maximum is [1e-5]. *)
Definition dynamic_range (y_true_valid : vector) : R :=
  match y_true_valid with
  | [] => 1e-5
  | v :: rest => Rmax (reduce_max v rest - reduce_min v rest) 1e-5
  end.

(** [tf.cast(tf.shape(y_true)[0], tf.float32)]. *)
Definition batch_size (y_true : matrix) : R := INR (length y_true).

Definition custom_accuracy_metric (y_true y_pred : matrix) : R :=
  let mask := tf_cast (tf_not_equal y_true sentinel) in
  let y_pred_masked := boolean_mask y_pred mask in
  let y_true_masked := boolean_mask y_true mask in
  let sum_pred_masked := reduce_sum1 y_pred_masked in
  let sum_true_masked := reduce_sum1 y_true_masked in
  let epsilon := 1e-8 in
  let ratio := 100.0 * sum_pred_masked / (sum_true_masked + epsilon) in
  let accuracy := Rmin ratio 1000.0 in
  accuracy.

Definition masked_mse_bce_loss (y_true y_pred : matrix) (bce_weight : R) : R :=
  let valid_mask := valid_mask y_true in
  let y_true_valid := boolean_mask y_true valid_mask in
  let dynamic_range := dynamic_range y_true_valid in
  let mse_loss := tmap2 mean_squared_error y_true y_pred in
  let mse_loss := tmap2 Rmult mse_loss valid_mask in
  let normalized_mse_loss :=
    reduce_sum (tmap (fun x => x / dynamic_range ^ 2) mse_loss) / reduce_sum valid_mask in
  let y_true_is_zero_mask := tf_cast (tf_equal y_true 0.0) in
  let y_preds_clipped := tmap (fun p => clip_by_value p 0.001 0.999) y_pred in
  let y_true_for_bce := tmap (fun _ : R => 0) y_pred in
  let bce_loss := tmap2 binary_crossentropy y_true_for_bce y_preds_clipped in
  let bce_loss :=
    tmap2 Rmult (tmap2 Rmult (tmap (Rmult bce_weight) bce_loss) y_true_is_zero_mask)
      valid_mask in
  let normalized_bce_loss := reduce_sum bce_loss / reduce_sum valid_mask in
  let combined_loss := normalized_mse_loss + normalized_bce_loss in
  combined_loss.

Definition masked_mae_loss (y_true y_pred_outputs : matrix) : R :=
  let y_pred := y_pred_outputs in
  let mask := valid_mask y_true in
  let base_loss := tmap2 mean_absolute_error y_true y_pred in
  let masked_loss := tmap2 Rmult base_loss mask in
  let y_true_valid := boolean_mask y_true mask in
  let dynamic_range := dynamic_range y_true_valid in
  let num_valid_values := reduce_sum mask in
  let normalized_loss :=
    reduce_sum (tmap (fun x => x / dynamic_range) masked_loss) / num_valid_values * 1000 in
  normalized_loss.

Definition masked_mse_loss (y_true y_pred : matrix) : R :=
  let valid_mask := valid_mask y_true in
  let y_true_valid := boolean_mask y_true valid_mask in
  let dynamic_range := dynamic_range y_true_valid in
  let mse_loss := tmap2 mean_squared_error y_true y_pred in
  let mse_loss := tmap2 Rmult mse_loss valid_mask in
  let normalized_mse_loss :=
    reduce_sum (tmap (fun x => x / dynamic_range ^ 2) mse_loss) / reduce_sum valid_mask in
  normalized_mse_loss.

Definition masked_huber_loss (y_true y_pred_outputs : matrix) : R :=
  let delta := 1.0 in
  let y_pred := y_pred_outputs in
  let mask := valid_mask y_true in
  let base_loss := tmap2 (huber delta) y_true y_pred in
  let masked_loss := tmap2 Rmult base_loss mask in
  let batch_size := batch_size y_true in
  reduce_sum masked_loss / reduce_sum mask / batch_size.

Definition masked_bce_loss (y_true y_pred_outputs : matrix) : R :=
  let y_pred := y_pred_outputs in
  let mask := valid_mask y_true in
  let base_loss := tmap2 binary_crossentropy y_true y_pred in
  let masked_loss := tmap2 Rmult base_loss mask in
  let batch_size := batch_size y_true in
  reduce_sum masked_loss / reduce_sum mask / batch_size.

(** *** The losses as the specification words them

    The non-sentinel labels of a label tensor, and the (label, prediction)
    pairs of the points whose label is not the sentinel. *)
Definition is_valid (t : R) : bool := negb (Reqb t sentinel).

Definition valid_labels (y_true : matrix) : vector :=
  filter is_valid (concat y_true).

Definition valid_pairs (y_true y_pred : matrix) : list (R * R) :=
  concat (map2 (fun rt rp => filter (fun tp => is_valid (fst tp)) (combine rt rp))
            y_true y_pred).

(** The sum of a per-point error over the valid points only. *)
Definition sum_over_valid (err : R -> R -> R) (y_true y_pred : matrix) : R :=
  reduce_sum1 (map (fun tp => err (fst tp) (snd tp)) (valid_pairs y_true y_pred)).

(** The number of valid points. *)
Definition valid_count (y_true : matrix) : R := INR (length (valid_labels y_true)).

(** Every label of the tensor is the sentinel. *)
Definition all_sentinel (y_true : matrix) : Prop :=
  Forall (fun t => t = sentinel) (concat y_true).

(** *** Numerators and denominators

    The pieces of the losses that the statements about their normalisers
    name. *)

(** The BCE penalty of [masked_mse_bce_loss] on one point: the cross-entropy
    of the clipped prediction against the target zero, counted only where the
    label is exactly zero. *)
Definition zero_label_penalty (bce_weight t p : R) : R :=
  bce_weight * binary_crossentropy 0 (clip_by_value p 0.001 0.999)
  * cast_float32 (Reqb t 0.0).

(** The normaliser every masked loss divides by, and the numerators it
    divides, as the code computes them. *)
Definition masked_loss_denominator (y_true : matrix) : R := reduce_sum (valid_mask y_true).

Definition masked_mse_numerator (y_true y_pred : matrix) : R :=
  let dynamic_range := dynamic_range (boolean_mask y_true (valid_mask y_true)) in
  reduce_sum
    (tmap (fun x => x / dynamic_range ^ 2)
       (tmap2 Rmult (tmap2 mean_squared_error y_true y_pred) (valid_mask y_true))).

Definition masked_bce_penalty_numerator (y_true y_pred : matrix) (bce_weight : R) : R :=
  reduce_sum
    (tmap2 Rmult
       (tmap2 Rmult
          (tmap (Rmult bce_weight)
             (tmap2 binary_crossentropy (tmap (fun _ : R => 0) y_pred)
                (tmap (fun p => clip_by_value p 0.001 0.999) y_pred)))
          (tf_cast (tf_equal y_true 0.0)))
       (valid_mask y_true)).

Definition masked_mae_numerator (y_true y_pred : matrix) : R :=
  let dynamic_range := dynamic_range (boolean_mask y_true (valid_mask y_true)) in
  reduce_sum
    (tmap (fun x => x / dynamic_range)
       (tmap2 Rmult (tmap2 mean_absolute_error y_true y_pred) (valid_mask y_true))).

Definition masked_huber_numerator (y_true y_pred : matrix) : R :=
  reduce_sum (tmap2 Rmult (tmap2 (huber 1.0) y_true y_pred) (valid_mask y_true)).

Definition masked_bce_numerator (y_true y_pred : matrix) : R :=
  reduce_sum (tmap2 Rmult (tmap2 binary_crossentropy y_true y_pred) (valid_mask y_true)).

(** The denominator of [custom_accuracy_metric]: [sum_true_masked + epsilon]. *)
Definition custom_accuracy_metric_denominator (y_true : matrix) : R :=
  reduce_sum1 (boolean_mask y_true (tf_cast (tf_not_equal y_true sentinel))) + 1e-8.

(** Every label that is not the sentinel is non-negative. *)
Definition nonnegative_labels (y_true : matrix) : Prop :=
  Forall (fun t => t = sentinel \/ 0 <= t) (concat y_true).

(** ** OrthogonalRegularizer *)

(** [count] consecutive chunks of [width] entries: the row-major split that
    [tf.reshape] performs along one axis. *)
Fixpoint chunks {A : Type} (count width : nat) (l : list A) : list (list A) :=
  match count with
  | O => []
  | S c => firstn width l :: chunks c width (skipn width l)
  end.

(** [tf.reshape(flat, (k, n, m))] of row-major data. *)
Definition reshape3 (k n m : nat) (flat : vector) : tensor3 :=
  chunks k n (chunks (k * n) m flat).

(** [tf.eye(n)]. *)
Definition eye (n : nat) : matrix :=
  map (fun i => map (fun j => if Nat.eqb i j then 1 else 0) (seq 0 n)) (seq 0 n).

Definition dot (x y : vector) : R := reduce_sum1 (map2 Rmult x y).

(** [tf.tensordot(A, B, axes=(2, 2))] of two rank-3 tensors: the rank-4 tensor
    whose entry [b][i][c][j] is the product of row [i] of matrix [b] of [A]
    with row [j] of matrix [c] of [B]. *)
Definition tensordot_2_2 (A B : tensor3) : list tensor3 :=
  map (fun Ab => map (fun row_i => map (fun Bc => map (fun row_j => dot row_i row_j) Bc) B) Ab) A.

(** The row-major data of a rank-4 tensor. *)
Definition flatten4 (t : list tensor3) : vector := concat (concat (concat t)).

(** The product of one matrix with its own transpose. *)
Definition gram (A : matrix) : matrix := map (fun row_i => map (fun row_j => dot row_i row_j) A) A.

Module OrthogonalRegularizer.

Record t : Type := Build { num_features : nat; l2 : R }.

(** [__init__(self, num_features=6, l2=0.001)]; [default] is the call without
    arguments, and [OrthogonalRegularizer(size)] is [__init__ size 0.001]. *)
Definition __init__ (num_features : nat) (l2 : R) : t := Build num_features l2.
Definition default : t := __init__ 6 0.001.

Definition I (self : t) : matrix := eye (num_features self).

(** [tf.reshape(inputs, (-1, n, n))] infers the leading size; it raises when
    [n] is zero or the number of entries is not a multiple of [n * n]. *)
Definition reshape_matrices (n : nat) (inputs : vector) : option tensor3 :=
  if Nat.eqb n 0 then None
  else if Nat.eqb (length inputs mod (n * n)) 0
       then Some (reshape3 (length inputs / (n * n)) n n inputs)
       else None.

(** [__call__(self, inputs)] on the row-major data of [inputs]. *)
Definition __call__ (self : t) (inputs : vector) : option R :=
  let n := num_features self in
  match reshape_matrices n inputs with
  | None => None
  | Some A =>
      let AAT := tensordot_2_2 A A in
      match reshape_matrices n (flatten4 AAT) with
      | None => None
      | Some AAT =>
          Some (reduce_sum1
                  (map (fun M => reduce_sum (tmap (fun d => l2 self * d ^ 2)
                                               (tmap2 Rminus M (I self))))
                       AAT))
      end
  end.

End OrthogonalRegularizer.

(** ** Model blocks *)

(** The trainable and moving parameters of the layers. *)
Record layer_weights : Type := { kernel : matrix; bias : vector }.

Record batchnorm_weights : Type :=
  { gamma : vector; beta : vector; moving_mean : vector; moving_variance : vector }.

Record block_weights : Type := { linear : layer_weights; norm : batchnorm_weights }.

(** Column [j] of a kernel of shape (inputs, units). *)
Definition column (j : nat) (K : matrix) : vector := map (fun row => nth j row 0) K.

(** [tf.keras.layers.Dense(units)] on one feature vector: [x . kernel + bias]. *)
Definition Dense (units : nat) (w : layer_weights) (x : vector) : vector :=
  map (fun j => dot x (column j (kernel w)) + nth j (bias w) 0) (seq 0 units).

(** [tf.keras.layers.Conv1D(filters, kernel_size=1, activation)]: the same
    dense map on every point. *)
Definition Conv1D (filters : nat) (activation : R -> R) (w : layer_weights)
  (x : matrix) : matrix :=
  map (fun p => map activation (Dense filters w p)) x.

(** [tf.keras.layers.BatchNormalization()] at inference on one feature vector,
    with Keras's default [epsilon = 0.001]. *)
Definition BatchNormalization (w : batchnorm_weights) (x : vector) : vector :=
  map (fun jv =>
         let j := fst jv in
         nth j (gamma w) 1 * (snd jv - nth j (moving_mean w) 0)
           / sqrt (nth j (moving_variance w) 1 + 0.001)
         + nth j (beta w) 0)
      (combine (seq 0 (length x)) x).

(** [tf.keras.layers.Dropout(rate)] at inference. *)
Definition Dropout {A : Type} (rate : R) (x : A) : A := x.

Definition conv_mlp (w : block_weights) (input_tensor : matrix) (filters : nat)
  (dropout_rate : option R) : matrix :=
  let x := Conv1D filters relu (linear w) input_tensor in
  let x := map (BatchNormalization (norm w)) x in
  match dropout_rate with
  | Some rate => Dropout rate x
  | None => x
  end.

(** The [kernel_regularizer] of a dense layer only adds a term to the training
    loss; the layer's output does not depend on it. *)
Definition dense_block (w : block_weights) (input_tensor : vector) (units : nat)
  (dropout_rate : option R) (regularizer : option OrthogonalRegularizer.t) : vector :=
  let x := Dense units (linear w) input_tensor in
  let x := BatchNormalization (norm w) x in
  let x := map relu x in
  match dropout_rate with
  | Some rate => Dropout rate x
  | None => x
  end.

(** The loss term Keras records for a [kernel_regularizer]: the regulariser
    called on the layer's kernel. *)
Definition kernel_regularization_loss (regularizer : option OrthogonalRegularizer.t)
  (w : block_weights) : option R :=
  match regularizer with
  | Some reg => OrthogonalRegularizer.__call__ reg (concat (kernel (linear w)))
  | None => Some 0
  end.

(** [tf.keras.layers.GlobalMaxPooling1D()] over the points of one event.  (Of
    no point at all float32 would give [-inf] per channel; the model never
    pools an empty event.) *)
Definition GlobalMaxPooling1D (x : matrix) : vector :=
  match x with
  | [] => []
  | p :: rest => fold_left (map2 Rmax) rest p
  end.

(** [tf.keras.layers.Dot(axes=(2, 1))([x, T])] on one event: every point, a
    row vector, times the matrix [T]. *)
Definition Dot_2_1 (x T : matrix) : matrix :=
  map (fun p => map (fun j => dot p (column j T)) (seq 0 (length (hd [] T)))) x.

Record TNet_weights : Type :=
  { tnet_conv1 : block_weights; tnet_conv2 : block_weights; tnet_conv3 : block_weights;
    tnet_dense1 : block_weights; tnet_dense2 : block_weights; tnet_dense3 : block_weights }.

Definition TNet_regularizer (size : nat) (add_regularization : bool)
  : option OrthogonalRegularizer.t :=
  if add_regularization then Some (OrthogonalRegularizer.__init__ size 0.001) else None.

Definition TNet (w : TNet_weights) (input_tensor : matrix) (size : nat)
  (add_regularization : bool) : matrix :=
  let x := conv_mlp (tnet_conv1 w) input_tensor 64 None in
  let x := conv_mlp (tnet_conv2 w) x 128 None in
  let x := conv_mlp (tnet_conv3 w) x 1024 None in
  let x := GlobalMaxPooling1D x in
  let x := dense_block (tnet_dense1 w) x 512 None None in
  let x := dense_block (tnet_dense2 w) x 256 None None in
  let reg := TNet_regularizer size add_regularization in
  let x := dense_block (tnet_dense3 w) x (size * size) None reg in
  chunks size size x.

(** The regularisation loss a T-Net contributes to training. *)
Definition TNet_regularization_loss (w : TNet_weights) (size : nat)
  (add_regularization : bool) : option R :=
  kernel_regularization_loss (TNet_regularizer size add_regularization) (tnet_dense3 w).

Record PointNet_weights : Type :=
  { input_tnet_weights : TNet_weights;
    conv1 : block_weights; conv2 : block_weights;
    feature_tnet_weights : TNet_weights;
    conv3 : block_weights; conv4 : block_weights; conv5 : block_weights;
    conv6 : block_weights; conv7 : block_weights; conv8 : block_weights;
    segmentation_conv : layer_weights }.

Definition num_features : nat := 6.
Definition network_size_factor : nat := 5.

(** The two stages of the network on one event: the per-point features after
    the input transform, and the globally max-pooled feature. *)
Definition point_features (w : PointNet_weights) (input_points : matrix) : matrix :=
  let input_tnet := TNet (input_tnet_weights w) input_points num_features false in
  let x := Dot_2_1 input_points input_tnet in
  let x := conv_mlp (conv1 w) x 64 None in
  let x := conv_mlp (conv2 w) x 64 None in
  x.

Definition global_feature (w : PointNet_weights) (input_points : matrix) : vector :=
  let x := point_features w input_points in
  let feature_tnet := TNet (feature_tnet_weights w) x 64 true in
  let x := Dot_2_1 x feature_tnet in
  let x := conv_mlp (conv3 w) x (64 * network_size_factor) None in
  let x := conv_mlp (conv4 w) x (128 * network_size_factor) None in
  let x := conv_mlp (conv5 w) x (1024 * network_size_factor) None in
  GlobalMaxPooling1D x.

(** [tf.tile(tf.expand_dims(g, 1), [1, num_points, 1])] on one event. *)
Definition tile_points (num_points : nat) (g : vector) : matrix := repeat g num_points.

(** [tf.keras.layers.Concatenate()] along the feature axis. *)
Definition Concatenate (a b : matrix) : matrix := map2 (@app R) a b.

(** The score of every point before the final activation. *)
Definition segmentation_scores (num_points num_classes : nat) (w : PointNet_weights)
  (input_points : matrix) : matrix :=
  let global_feature_expanded := tile_points num_points (global_feature w input_points) in
  let c := Concatenate (point_features w input_points) global_feature_expanded in
  let c := conv_mlp (conv6 w) c (512 * network_size_factor) None in
  let c := conv_mlp (conv7 w) c (256 * network_size_factor) None in
  let c := conv_mlp (conv8 w) c (128 * network_size_factor) (Some 0.3) in
  Conv1D num_classes (fun s => s) (segmentation_conv w) c.

(** The model on one event of shape (num_points, 6). *)
Definition segmentation_event (num_points num_classes : nat) (w : PointNet_weights)
  (input_points : matrix) : matrix :=
  let energy := map (fun p => nth 4 p 0) input_points in
  let segmentation_output_pre_sigmoid :=
    segmentation_scores num_points num_classes w input_points in
  let segmentation_output_pre_sigmoid := tmap sigmoid segmentation_output_pre_sigmoid in
  map2 (fun scores e => map (fun s => s * e) scores) segmentation_output_pre_sigmoid energy.

(** [tf.keras.Input(shape=(num_points, num_features))]: the model accepts only
    events of that shape. *)
Definition input_shape_ok (num_points : nat) (input_points : matrix) : bool :=
  Nat.eqb (length input_points) num_points
  && forallb (fun p => Nat.eqb (length p) num_features) input_points.

(** The model returned by [PointNetSegmentation(num_points, num_classes)],
    applied to a batch of events; [None] is Keras's shape error. *)
Definition PointNetSegmentation (num_points num_classes : nat) (w : PointNet_weights)
  (input_points : tensor3) : option tensor3 :=
  if forallb (input_shape_ok num_points) input_points
  then Some (map (segmentation_event num_points num_classes w) input_points)
  else None.

(** Reordering the points of an event: entry [k] of the result is entry
    [sigma[k]] of the list. *)
Definition permute {A : Type} (sigma : list nat) (l : list A) : list A :=
  flat_map (fun i => match nth_error l i with Some a => [a] | None => [] end) sigma.

(** [sigma] lists every index below [n] exactly once. *)
Definition is_permutation (n : nat) (sigma : list nat) : Prop :=
  Permutation sigma (seq 0 n).

(** What the masking layer is meant to do to one point: all features zero when
    the last feature is [-1], the point itself otherwise. *)
Definition masked_point (p : vector) : vector :=
  if Reqb (last p 0) (-1) then map (fun _ => 0) p else p.

(** ** Further functions of the file *)

(** [custom_sigmoid(x, a=3.0)]. *)
Definition custom_sigmoid (x a : R) : R := 1 / (1 + exp (- a * x)).

(** [hard_sigmoid(x)]: [cast(x > 0, float32)]. *)
Definition hard_sigmoid (x : R) : R := cast_float32 (Rltb 0 x).

(** Predictions that agree wherever the label is not the sentinel: the
    predictions with the sentinel-labelled entries blanked out. *)
Definition predictions_at_valid (y_true y_pred : matrix) : matrix :=
  tmap2 (fun t p => if is_valid t then p else 0) y_true y_pred.

(** A rank-2 tensor all of whose rows have [f] entries. *)
Definition has_width (f : nat) (x : matrix) : Prop := Forall (fun p => length p = f) x.

(** ** SaveModel

    [on_epoch_end] builds a file name with [str.format] and saves the model
    under it.  [str.format] is modelled for templates whose replacement
    fields are plain: empty (automatic numbering), a number (a positional
    argument) or a name (a keyword argument); doubled braces are literal
    braces.  Conversions, format specifications, nested fields and attribute
    or index access are left out ([Unsupported]), and so is Python's refusal
    to mix automatic and explicit numbering. *)

Module PythonFormat.
Import Ascii String DecimalString.
Local Open Scope string_scope.

Inductive format_error : Type :=
| KeyError (name : string)
| IndexError
| ValueError
| Unsupported.

(** [str(n)] of a non-negative integer. *)
Definition str (n : nat) : string := NilZero.string_of_uint (Nat.to_uint n).

Definition is_digit (c : ascii) : bool :=
  (Nat.leb 48 (nat_of_ascii c) && Nat.leb (nat_of_ascii c) 57)%bool.

Fixpoint all_digits (s : string) : bool :=
  match s with
  | EmptyString => true
  | String c rest => (is_digit c && all_digits rest)%bool
  end.

Fixpoint has_special (s : string) : bool :=
  match s with
  | EmptyString => false
  | String c rest =>
      (Ascii.eqb c "." || Ascii.eqb c "[" || Ascii.eqb c "!" || Ascii.eqb c ":"
       || Ascii.eqb c "{" || has_special rest)%bool
  end.

Fixpoint number_of (s : string) (acc : nat) : nat :=
  match s with
  | EmptyString => acc
  | String c rest => number_of rest (10 * acc + (nat_of_ascii c - 48))
  end.

Fixpoint lookup_keyword (name : string) (kwargs : list (string * string)) : option string :=
  match kwargs with
  | [] => None
  | (k, v) :: rest => if String.eqb k name then Some v else lookup_keyword name rest
  end.

(** The value of one replacement field. *)
Definition field_value (field : string) (auto : nat) (args : list string)
  (kwargs : list (string * string)) : format_error + string :=
  if has_special field then inl Unsupported
  else match field with
       | EmptyString =>
           match nth_error args auto with Some v => inr v | None => inl IndexError end
       | _ =>
           if all_digits field
           then match nth_error args (number_of field 0) with
                | Some v => inr v
                | None => inl IndexError
                end
           else match lookup_keyword field kwargs with
                | Some v => inr v
                | None => inl (KeyError field)
                end
       end.

Definition prepend (c : ascii) (r : format_error + string) : format_error + string :=
  match r with
  | inl e => inl e
  | inr s => inr (String c s)
  end.

(** [template.format] on positional and keyword arguments, read left to
    right; [field] holds the
    characters of the replacement field being read, [auto] the next automatic
    index. *)
Fixpoint format_from (template : string) (field : option string) (auto : nat)
  (args : list string) (kwargs : list (string * string)) : format_error + string :=
  match field with
  | None =>
      match template with
      | EmptyString => inr EmptyString
      | String "{" (String "{" rest) => prepend "{" (format_from rest None auto args kwargs)
      | String "{" rest => format_from rest (Some EmptyString) auto args kwargs
      | String "}" (String "}" rest) => prepend "}" (format_from rest None auto args kwargs)
      | String "}" _ => inl ValueError
      | String c rest => prepend c (format_from rest None auto args kwargs)
      end
  | Some name =>
      match template with
      | EmptyString => inl ValueError
      | String "}" rest =>
          match field_value name auto args kwargs with
          | inl e => inl e
          | inr v =>
              match format_from rest None
                      (match name with EmptyString => S auto | _ => auto end) args kwargs with
              | inl e => inl e
              | inr s => inr (v ++ s)%string
              end
          end
      | String c rest =>
          format_from rest (Some (name ++ String c EmptyString)%string) auto args kwargs
      end
  end.

Definition format (template : string) (args : list string)
  (kwargs : list (string * string)) : format_error + string :=
  format_from template None 0 args kwargs.

End PythonFormat.

Module SaveModel.
Import Ascii String PythonFormat.
Local Open Scope string_scope.

(** [on_epoch_end(self, epoch, logs={})]: the file name the model is saved
    under, or the exception raised before [self.model.save] is reached. *)
Definition on_epoch_end (epoch : nat) : format_error + string :=
  format "JetPointNet_{epoch}.hd5" [str epoch] [].

End SaveModel.

(** ** Sample weights and inputs *)

(** Weights that store no entry: every kernel and bias entry reads as zero and
    every batch normalisation has its initial statistics. *)
Definition blank_layer : layer_weights := {| kernel := []; bias := [] |}.
Definition blank_block : block_weights :=
  {| linear := blank_layer;
     norm := {| gamma := []; beta := []; moving_mean := []; moving_variance := [] |} |}.
Definition blank_TNet : TNet_weights :=
  {| tnet_conv1 := blank_block; tnet_conv2 := blank_block; tnet_conv3 := blank_block;
     tnet_dense1 := blank_block; tnet_dense2 := blank_block; tnet_dense3 := blank_block |}.
Definition blank_weights : PointNet_weights :=
  {| input_tnet_weights := blank_TNet; conv1 := blank_block; conv2 := blank_block;
     feature_tnet_weights := blank_TNet;
     conv3 := blank_block; conv4 := blank_block; conv5 := blank_block;
     conv6 := blank_block; conv7 := blank_block; conv8 := blank_block;
     segmentation_conv := blank_layer |}.

(** A batch normalisation with scale zero and offset [t]: at inference it
    returns [t] whatever the dense layer before it computes. *)
Definition constant_norm (t : vector) : batchnorm_weights :=
  {| gamma := map (fun _ => 0) t; beta := t; moving_mean := []; moving_variance := [] |}.

(** The T-Net weights [w] with the batch normalisation of the last dense
    block replaced; every kernel and bias is kept. *)
Definition with_final_norm (w : TNet_weights) (nw : batchnorm_weights) : TNet_weights :=
  {| tnet_conv1 := tnet_conv1 w; tnet_conv2 := tnet_conv2 w; tnet_conv3 := tnet_conv3 w;
     tnet_dense1 := tnet_dense1 w; tnet_dense2 := tnet_dense2 w;
     tnet_dense3 := {| linear := linear (tnet_dense3 w); norm := nw |} |}.

(** A T-Net for two-by-two matrices whose last kernel has the shape (256, 4)
    that [dense_block(x, size * size)] gives it after the 256 units before
    it, every row being the row-major identity matrix. *)
Definition identity_rows_TNet : TNet_weights :=
  {| tnet_conv1 := blank_block; tnet_conv2 := blank_block; tnet_conv3 := blank_block;
     tnet_dense1 := blank_block; tnet_dense2 := blank_block;
     tnet_dense3 :=
       {| linear := {| kernel := repeat [1; 0; 0; 1] 256; bias := [] |};
          norm := norm blank_block |} |}.


(** A batch of one event of two points, the first of them padding. *)
Definition example_points : tensor3 := [[[1; 2; -1]; [3; 4; 0]]].

(** An event of two points, the second of them a padding point that carries
    energy, and the exchange of its two points. *)
Definition example_event : matrix := [[0; 0; 0; 0; 1; 0]; [0; 0; 0; 0; 2; -1]].
Definition example_swap : list nat := [1%nat; O].

(** Labels of one event: a valid label 1 and a sentinel. *)
Definition example_labels : matrix := [[1; sentinel]].

(** * Properties *)

(** ** Lists and tensors *)

Lemma map2_map_r {A B C D : Type} (f : A -> B -> C) (g : D -> B) (h : D -> A) (l : list D) :
  map2 f (map h l) (map g l) = map (fun d => f (h d) (g d)) l.
Proof.
  induction l as [|d l IH]; simpl; [reflexivity|]. now rewrite IH.
Qed.

Lemma map2_self_map {A B C : Type} (f : A -> B -> C) (g : A -> B) (l : list A) :
  map2 f l (map g l) = map (fun a => f a (g a)) l.
Proof.
  induction l as [|a l IH]; simpl; [reflexivity|]. now rewrite IH.
Qed.

Lemma map2_length {A B C : Type} (f : A -> B -> C) (la : list A) (lb : list B) :
  length (map2 f la lb) = Nat.min (length la) (length lb).
Proof.
  revert lb; induction la as [|a la IH]; intros [|b lb]; simpl; auto.
Qed.

Lemma map_ext_Forall {A B : Type} (f g : A -> B) (l : list A) :
  Forall (fun a => f a = g a) l -> map f l = map g l.
Proof.
  induction 1; simpl; congruence.
Qed.

Lemma Reqb_true (x y : R) : Reqb x y = true <-> x = y.
Proof.
  unfold Reqb; destruct (Req_dec_T x y); split; congruence.
Qed.

Lemma Reqb_false (x y : R) : Reqb x y = false <-> x <> y.
Proof.
  unfold Reqb; destruct (Req_dec_T x y); split; congruence.
Qed.

Lemma Rltb_true (x y : R) : Rltb x y = true <-> x < y.
Proof.
  unfold Rltb; destruct (Rlt_dec x y); split; auto; discriminate.
Qed.

Lemma Rltb_false (x y : R) : Rltb x y = false <-> y <= x.
Proof.
  unfold Rltb; destruct (Rlt_dec x y); split; intros; try lra; auto; discriminate.
Qed.

Lemma Rleb_true (x y : R) : Rleb x y = true <-> x <= y.
Proof.
  unfold Rleb; destruct (Rle_dec x y); split; auto; discriminate.
Qed.

Lemma Rleb_false (x y : R) : Rleb x y = false <-> y < x.
Proof.
  unfold Rleb; destruct (Rle_dec x y); split; intros; try lra; auto; discriminate.
Qed.

(** ** CustomMaskingLayer *)

Lemma last_feature_last (p : vector) :
  p <> [] -> CustomMaskingLayer.last_feature p = Some (last p 0).
Proof.
  intros Hp. unfold CustomMaskingLayer.last_feature.
  destruct (exists_last Hp) as [q [x ->]].
  rewrite rev_app_distr, last_last. reflexivity.
Qed.

Lemma slice_last_row_map (row : matrix) :
  Forall (fun p => p <> []) row ->
  CustomMaskingLayer.slice_last_row row = Some (map (fun p => last p 0) row).
Proof.
  induction 1 as [|p row Hp _ IH]; simpl; [reflexivity|].
  now rewrite (last_feature_last p Hp), IH.
Qed.

Lemma slice_last_map (inputs : tensor3) :
  Forall (Forall (fun p => p <> [])) inputs ->
  CustomMaskingLayer.slice_last inputs = Some (tmap (fun p => last p 0) inputs).
Proof.
  induction 1 as [|row inputs Hrow _ IH]; simpl; [reflexivity|].
  now rewrite (slice_last_row_map row Hrow), IH.
Qed.

Lemma mul_point_mask (p : vector) (x : R) :
  CustomMaskingLayer.mul_point p [cast_float32 (negb (Reqb x (-1)))]
  = if Reqb x (-1) then map (fun _ => 0) p else p.
Proof.
  unfold CustomMaskingLayer.mul_point.
  destruct (Reqb x (-1)); simpl.
  - apply map_ext; intros; lra.
  - rewrite <- (map_id p) at 2. apply map_ext; intros; lra.
Qed.

Lemma call_masked_points (inputs : tensor3) :
  Forall (Forall (fun p => p <> [])) inputs ->
  CustomMaskingLayer.call inputs = Some (tmap masked_point inputs).
Proof.
  intros H. unfold CustomMaskingLayer.call.
  rewrite (slice_last_map inputs H). f_equal.
  unfold CustomMaskingLayer.multiply_broadcast, CustomMaskingLayer.expand_dims_last,
    tf_cast, tf_not_equal, tmap2, tmap.
  rewrite !map_map.
  rewrite map2_self_map. apply map_ext; intros row.
  rewrite !map_map, map2_self_map. apply map_ext; intros p.
  apply mul_point_mask.
Qed.

Lemma masked_point_length (p : vector) : length (masked_point p) = length p.
Proof.
  unfold masked_point; destruct (Reqb _ _); [apply length_map | reflexivity].
Qed.

Lemma has_shape3_nonempty (b n f : nat) (t : tensor3) :
  has_shape3 b n (S f) t -> Forall (Forall (fun p => p <> [])) t.
Proof.
  intros [_ H]. eapply Forall_impl; [|exact H].
  intros row [_ Hrow]. eapply Forall_impl; [|exact Hrow].
  intros p Hp ->. discriminate.
Qed.

Lemma has_shape3_masked (b n f : nat) (t : tensor3) :
  has_shape3 b n f t -> has_shape3 b n f (tmap masked_point t).
Proof.
  intros [Hb H]. split; [unfold tmap; now rewrite length_map|].
  unfold tmap. apply Forall_map. eapply Forall_impl; [|exact H].
  intros row [Hn Hrow]. split; [now rewrite length_map|].
  apply Forall_map. eapply Forall_impl; [|exact Hrow].
  intros p Hp. now rewrite masked_point_length.
Qed.

(** C7. On an input of shape (batch, points, features) with at least one
    feature, [CustomMaskingLayer.call] returns a tensor of the same shape in
    which a point whose last feature is [-1] has every feature zero and every
    other point is unchanged. *)
Theorem CustomMaskingLayer_call_spec (b n f : nat) (inputs : tensor3) :
  has_shape3 b n (S f) inputs ->
  exists out,
    CustomMaskingLayer.call inputs = Some out /\
    has_shape3 b n (S f) out /\
    forall i j row p, nth_error inputs i = Some row -> nth_error row j = Some p ->
      exists row' q, nth_error out i = Some row' /\ nth_error row' j = Some q /\
        length q = length p /\
        (last p 0 = -1 -> Forall (fun x => x = 0) q) /\
        (last p 0 <> -1 -> q = p).
Proof.
  intros Hs. exists (tmap masked_point inputs).
  split; [apply call_masked_points; eapply has_shape3_nonempty; eauto|].
  split; [now apply has_shape3_masked|].
  intros i j row p Hi Hj.
  exists (map masked_point row), (masked_point p).
  split; [unfold tmap; now apply map_nth_error|].
  split; [now apply map_nth_error|].
  split; [apply masked_point_length|].
  unfold masked_point. split.
  - intros E. apply Reqb_true in E. rewrite E.
    apply Forall_map. apply Forall_forall. reflexivity.
  - intros E. apply Reqb_false in E. now rewrite E.
Qed.

(** ** rectified_TSSR_Activation *)

Lemma TSSR_negative (x : R) : x < 0 -> rectified_TSSR_Activation x = 0.01 * x.
Proof.
  intros H. unfold rectified_TSSR_Activation, tf_where.
  now rewrite (proj2 (Rltb_true x 0) H).
Qed.

Lemma TSSR_small_positive (x : R) : 0 <= x < 1 -> rectified_TSSR_Activation x = x.
Proof.
  intros [H0 H1]. unfold rectified_TSSR_Activation, tf_where.
  rewrite (proj2 (Rltb_false x 0) H0), (proj2 (Rleb_true 0 x) H0),
    (proj2 (Rltb_true x 1) H1).
  reflexivity.
Qed.

Lemma TSSR_large_positive (x : R) :
  1 <= x -> rectified_TSSR_Activation x = 0.1 * sqrt x - 0.1 + 1.
Proof.
  intros H. unfold rectified_TSSR_Activation, tf_where, tf_sign.
  assert (H0 : 0 <= x) by lra. assert (H0' : 0 < x) by lra.
  rewrite (proj2 (Rltb_false x 0) H0), (proj2 (Rleb_true 0 x) H0),
    (proj2 (Rltb_false x 1) H), (proj2 (Rltb_true 0 x) H0').
  simpl. rewrite Rabs_right by lra. lra.
Qed.

Lemma sqrt_ge_1 (x : R) : 1 <= x -> 1 <= sqrt x.
Proof.
  intros H. rewrite <- sqrt_1 at 1. apply sqrt_le_1; lra.
Qed.

Lemma sqrt_le_self (x : R) : 1 <= x -> sqrt x <= x.
Proof.
  intros H. pose proof (sqrt_ge_1 x H) as Hs.
  pose proof (sqrt_sqrt x ltac:(lra)) as Hq. nra.
Qed.

Lemma TSSR_increasing (x y : R) :
  x < y -> rectified_TSSR_Activation x < rectified_TSSR_Activation y.
Proof.
  intros Hxy.
  destruct (Rlt_dec x 0) as [Hx|Hx].
  - rewrite (TSSR_negative x Hx).
    destruct (Rlt_dec y 0) as [Hy|Hy].
    + rewrite (TSSR_negative y Hy). lra.
    + destruct (Rlt_dec y 1) as [Hy1|Hy1].
      * rewrite (TSSR_small_positive y) by lra. lra.
      * rewrite (TSSR_large_positive y) by lra.
        pose proof (sqrt_ge_1 y ltac:(lra)). lra.
  - destruct (Rlt_dec x 1) as [Hx1|Hx1].
    + rewrite (TSSR_small_positive x) by lra.
      destruct (Rlt_dec y 1) as [Hy1|Hy1].
      * rewrite (TSSR_small_positive y) by lra. lra.
      * rewrite (TSSR_large_positive y) by lra.
        pose proof (sqrt_ge_1 y ltac:(lra)). lra.
    + rewrite (TSSR_large_positive x), (TSSR_large_positive y) by lra.
      assert (sqrt x < sqrt y) by (apply sqrt_lt_1; lra). lra.
Qed.

Lemma TSSR_unbounded (M : R) : exists x, M < rectified_TSSR_Activation x.
Proof.
  set (s := 10 * Rabs M + 10).
  assert (Hs : 10 <= s) by (unfold s; pose proof (Rabs_pos M); lra).
  exists (s * s).
  rewrite TSSR_large_positive by nra.
  rewrite sqrt_square by lra.
  unfold s. pose proof (Rle_abs M). lra.
Qed.

Lemma TSSR_continuous_at_0 : continuity_pt rectified_TSSR_Activation 0.
Proof.
  intros eps Heps. exists (Rmin eps 1). split.
  - apply Rmin_case; lra.
  - intros x [_ Hx]. simpl in *. unfold R_dist in *.
    rewrite (TSSR_small_positive 0) by lra.
    assert (Hx' : Rabs x < Rmin eps 1) by (replace x with (x - 0) by lra; exact Hx).
    pose proof (Rmin_l eps 1). pose proof (Rmin_r eps 1).
    destruct (Rlt_dec x 0) as [Hn|Hn].
    + rewrite (TSSR_negative x Hn).
      rewrite Rabs_left1 in Hx' by lra. rewrite Rabs_left1 by lra. lra.
    + rewrite Rabs_right in Hx' by lra.
      rewrite (TSSR_small_positive x) by lra.
      rewrite Rabs_right by lra. lra.
Qed.

Lemma TSSR_continuous_at_1 : continuity_pt rectified_TSSR_Activation 1.
Proof.
  intros eps Heps. exists (Rmin eps 1). split.
  - apply Rmin_case; lra.
  - intros x [_ Hx]. simpl in *. unfold R_dist in *.
    rewrite (TSSR_large_positive 1) by lra. rewrite sqrt_1.
    pose proof (Rmin_l eps 1). pose proof (Rmin_r eps 1).
    destruct (Rlt_dec x 1) as [Hn|Hn].
    + rewrite Rabs_left1 in Hx by lra.
      rewrite (TSSR_small_positive x) by lra.
      rewrite Rabs_left1 by lra. lra.
    + rewrite Rabs_right in Hx by lra.
      rewrite (TSSR_large_positive x) by lra.
      pose proof (sqrt_ge_1 x ltac:(lra)). pose proof (sqrt_le_self x ltac:(lra)).
      rewrite Rabs_right by lra. lra.
Qed.

(** C10. [rectified_TSSR_Activation] is [0.01 * x] below zero, [x] on [0, 1)
    and [0.1 * sqrt x - 0.1 + 1] from one on; it takes the value 0 at 0 and 1
    at 1 and is continuous at both boundaries, it is strictly increasing, and
    it is unbounded above. *)
Theorem rectified_TSSR_Activation_piecewise :
  (forall x, x < 0 -> rectified_TSSR_Activation x = 0.01 * x) /\
  (forall x, 0 <= x < 1 -> rectified_TSSR_Activation x = x) /\
  (forall x, 1 <= x -> rectified_TSSR_Activation x = 0.1 * sqrt x - 0.1 + 1) /\
  rectified_TSSR_Activation 0 = 0 /\
  rectified_TSSR_Activation 1 = 1 /\
  continuity_pt rectified_TSSR_Activation 0 /\
  continuity_pt rectified_TSSR_Activation 1 /\
  (forall x y, x < y -> rectified_TSSR_Activation x < rectified_TSSR_Activation y) /\
  (forall M, exists x, M < rectified_TSSR_Activation x).
Proof.
  repeat split.
  - apply TSSR_negative.
  - apply TSSR_small_positive.
  - apply TSSR_large_positive.
  - apply TSSR_small_positive; lra.
  - rewrite TSSR_large_positive by lra. rewrite sqrt_1. lra.
  - apply TSSR_continuous_at_0.
  - apply TSSR_continuous_at_1.
  - apply TSSR_increasing.
  - apply TSSR_unbounded.
Qed.

(** ** Masked losses *)

Lemma map2_ext {A B C : Type} (f g : A -> B -> C) (la : list A) (lb : list B) :
  (forall a b, f a b = g a b) -> map2 f la lb = map2 g la lb.
Proof.
  intros E. revert lb; induction la as [|a la IH]; intros [|b lb]; simpl; auto.
  now rewrite E, IH.
Qed.

Lemma map_map2 {A B C D : Type} (h : C -> D) (f : A -> B -> C) (la : list A) (lb : list B) :
  map h (map2 f la lb) = map2 (fun a b => h (f a b)) la lb.
Proof.
  revert lb; induction la as [|a la IH]; intros [|b lb]; simpl; auto.
  now rewrite IH.
Qed.

Lemma map2_map_left {A A' B C : Type} (f : A' -> B -> C) (h : A -> A')
  (la : list A) (lb : list B) :
  map2 f (map h la) lb = map2 (fun a b => f (h a) b) la lb.
Proof.
  revert lb; induction la as [|a la IH]; intros [|b lb]; simpl; auto.
  now rewrite IH.
Qed.

Lemma map2_map_right {A B B' C : Type} (f : A -> B' -> C) (h : B -> B')
  (la : list A) (lb : list B) :
  map2 f la (map h lb) = map2 (fun a b => f a (h b)) la lb.
Proof.
  revert lb; induction la as [|a la IH]; intros [|b lb]; simpl; auto.
  now rewrite IH.
Qed.

(** A third operand that is a function of the first list. *)
Lemma map2_map2_fst {A B C D E : Type} (f : C -> D -> E) (e : A -> B -> C) (g : A -> D)
  (la : list A) (lb : list B) :
  map2 f (map2 e la lb) (map g la) = map2 (fun a b => f (e a b) (g a)) la lb.
Proof.
  revert lb; induction la as [|a la IH]; intros [|b lb]; simpl; auto.
  now rewrite IH.
Qed.

(** A third operand that is a function of the second list. *)
Lemma map2_map2_snd {A B C D E : Type} (f : C -> D -> E) (e : A -> B -> C) (g : B -> D)
  (la : list A) (lb : list B) :
  map2 f (map2 e la lb) (map g lb) = map2 (fun a b => f (e a b) (g b)) la lb.
Proof.
  revert lb; induction la as [|a la IH]; intros [|b lb]; simpl; auto.
  now rewrite IH.
Qed.

Lemma map2_flip {A B C : Type} (f : A -> B -> C) (la : list A) (lb : list B) :
  map2 f la lb = map2 (fun b a => f a b) lb la.
Proof.
  revert lb; induction la as [|a la IH]; intros [|b lb]; simpl; auto.
  now rewrite IH.
Qed.

Lemma map2_diag {A C : Type} (f : A -> A -> C) (l : list A) :
  map2 f l l = map (fun a => f a a) l.
Proof.
  induction l as [|a l IH]; simpl; [reflexivity|]. now rewrite IH.
Qed.

Lemma reduce_sum1_app (l l' : vector) :
  reduce_sum1 (l ++ l') = reduce_sum1 l + reduce_sum1 l'.
Proof.
  unfold reduce_sum1. induction l as [|x l IH]; simpl; [lra|]. rewrite IH. lra.
Qed.

Lemma reduce_sum_cons (row : vector) (t : matrix) :
  reduce_sum (row :: t) = reduce_sum1 row + reduce_sum t.
Proof.
  unfold reduce_sum. simpl. apply reduce_sum1_app.
Qed.

Lemma is_valid_sentinel : is_valid sentinel = false.
Proof.
  unfold is_valid. now rewrite (proj2 (Reqb_true sentinel sentinel) eq_refl).
Qed.

Lemma is_valid_true (t : R) : is_valid t = true <-> t <> sentinel.
Proof.
  unfold is_valid. rewrite negb_true_iff. apply Reqb_false.
Qed.

Lemma cast_nonzero (b : bool) : negb (Reqb (cast_float32 b) 0) = b.
Proof.
  destruct b; simpl.
  - now rewrite (proj2 (Reqb_false 1 0) R1_neq_R0).
  - now rewrite (proj2 (Reqb_true 0 0) eq_refl).
Qed.

Lemma valid_mask_rows (y_true : matrix) :
  valid_mask y_true = tmap (fun t => cast_float32 (is_valid t)) y_true.
Proof.
  unfold valid_mask, tf_cast, tf_not_equal, tmap, is_valid.
  rewrite map_map. apply map_ext; intros row. now rewrite map_map.
Qed.

Lemma mask_row_valid (row : vector) :
  mask_row row (map (fun t => cast_float32 (is_valid t)) row) = filter is_valid row.
Proof.
  unfold mask_row. induction row as [|t row IH]; simpl; [reflexivity|].
  rewrite cast_nonzero. destruct (is_valid t); simpl; now rewrite IH.
Qed.

Lemma mask_row_pairs (rt rp : vector) :
  mask_row rp (map (fun t => cast_float32 (is_valid t)) rt)
  = map snd (filter (fun tp => is_valid (fst tp)) (combine rt rp)).
Proof.
  unfold mask_row. revert rp; induction rt as [|t rt IH]; intros [|p rp]; simpl; auto.
  rewrite cast_nonzero. destruct (is_valid t); simpl; now rewrite IH.
Qed.

(** [tf.boolean_mask(y_true, mask)] keeps exactly the non-sentinel labels. *)
Lemma boolean_mask_labels (y_true : matrix) :
  boolean_mask y_true (valid_mask y_true) = valid_labels y_true.
Proof.
  unfold boolean_mask, valid_labels. rewrite valid_mask_rows. unfold tmap.
  rewrite map2_self_map. rewrite <- concat_filter_map. f_equal.
  apply map_ext; intros row. apply mask_row_valid.
Qed.

(** [tf.boolean_mask(y_pred, mask)] keeps the predictions of the points whose
    label is not the sentinel. *)
Lemma boolean_mask_predictions (y_true y_pred : matrix) :
  boolean_mask y_pred (valid_mask y_true) = map snd (valid_pairs y_true y_pred).
Proof.
  unfold boolean_mask, valid_pairs. rewrite valid_mask_rows. unfold tmap.
  rewrite map2_map_right.
  rewrite (map2_flip _ y_pred y_true).
  revert y_pred; induction y_true as [|rt y_true IH]; intros [|rp y_pred]; simpl; auto.
  rewrite map_app, IH. f_equal. apply mask_row_pairs.
Qed.

(** The sum of the mask is the number of non-sentinel labels. *)
Lemma reduce_sum_valid_mask (y_true : matrix) :
  reduce_sum (valid_mask y_true) = valid_count y_true.
Proof.
  rewrite valid_mask_rows. unfold valid_count, valid_labels, reduce_sum, tmap.
  induction y_true as [|row y_true IH]; simpl; [reflexivity|].
  rewrite reduce_sum1_app, IH, filter_app, length_app, plus_INR. f_equal.
  clear IH. induction row as [|t row IH]; simpl; [reflexivity|].
  unfold reduce_sum1 in *. destruct (is_valid t); simpl.
  - rewrite IH. destruct (length (filter is_valid row)); simpl; lra.
  - rewrite IH. lra.
Qed.

(** A per-point term that vanishes on the sentinel label sums, over the whole
    tensor, to its sum over the non-sentinel points. *)
Lemma masked_sum_row (F : R -> R -> R) (rt rp : vector) :
  (forall p, F sentinel p = 0) ->
  reduce_sum1 (map2 F rt rp)
  = reduce_sum1 (map (fun tp => F (fst tp) (snd tp))
                   (filter (fun tp => is_valid (fst tp)) (combine rt rp))).
Proof.
  intros HF. revert rp; induction rt as [|t rt IH]; intros [|p rp]; simpl; auto.
  destruct (is_valid t) eqn:E; simpl.
  - unfold reduce_sum1 in *. now rewrite IH.
  - unfold is_valid in E. rewrite negb_false_iff in E. apply Reqb_true in E. subst t.
    unfold reduce_sum1 in *. rewrite HF, IH. lra.
Qed.

Lemma masked_sum (F : R -> R -> R) (y_true y_pred : matrix) :
  (forall p, F sentinel p = 0) ->
  reduce_sum (tmap2 F y_true y_pred) = sum_over_valid F y_true y_pred.
Proof.
  intros HF. unfold sum_over_valid, valid_pairs, tmap2.
  revert y_pred; induction y_true as [|rt y_true IH]; intros [|rp y_pred]; simpl; auto.
  rewrite reduce_sum_cons, map_app, reduce_sum1_app, IH. f_equal.
  now apply masked_sum_row.
Qed.

Lemma valid_pairs_valid (y_true y_pred : matrix) (tp : R * R) :
  In tp (valid_pairs y_true y_pred) -> is_valid (fst tp) = true.
Proof.
  unfold valid_pairs.
  revert y_pred; induction y_true as [|rt y_true IH]; intros [|rp y_pred]; simpl; try tauto.
  rewrite in_app_iff. intros [H|H]; [|eauto].
  apply filter_In in H. tauto.
Qed.

Lemma sum_over_valid_ext (F G : R -> R -> R) (y_true y_pred : matrix) :
  (forall t p, is_valid t = true -> F t p = G t p) ->
  sum_over_valid F y_true y_pred = sum_over_valid G y_true y_pred.
Proof.
  intros E. unfold sum_over_valid. f_equal. apply map_ext_in.
  intros tp Hin. apply E. eapply valid_pairs_valid; eauto.
Qed.

(** The shape of every masked numerator: a per-point error times the mask,
    optionally post-processed by a map [h] that keeps zero. *)
Lemma masked_numerator (err : R -> R -> R) (h : R -> R) (y_true y_pred : matrix) :
  h 0 = 0 ->
  reduce_sum (tmap h (tmap2 Rmult (tmap2 err y_true y_pred) (valid_mask y_true)))
  = sum_over_valid (fun t p => h (err t p)) y_true y_pred.
Proof.
  intros Hh. rewrite valid_mask_rows.
  transitivity (reduce_sum (tmap2 (fun t p => h (err t p * cast_float32 (is_valid t)))
                              y_true y_pred)).
  - f_equal. unfold tmap, tmap2. rewrite map2_map2_fst, map_map2.
    apply map2_ext; intros rt rp. now rewrite map2_map2_fst, map_map2.
  - rewrite masked_sum.
    + apply sum_over_valid_ext. intros t p ->. simpl. f_equal. lra.
    + intros p. rewrite is_valid_sentinel. simpl. rewrite Rmult_0_r. exact Hh.
Qed.

Lemma tmap_id_ext {A : Type} (t : list (list A)) : tmap (fun x => x) t = t.
Proof.
  unfold tmap. rewrite <- (map_id t) at 2. apply map_ext; intros. apply map_id.
Qed.

Lemma masked_mse_loss_valid (y_true y_pred : matrix) :
  masked_mse_loss y_true y_pred
  = sum_over_valid
      (fun t p => mean_squared_error t p / dynamic_range (valid_labels y_true) ^ 2)
      y_true y_pred
    / valid_count y_true.
Proof.
  unfold masked_mse_loss. cbv zeta.
  rewrite boolean_mask_labels, reduce_sum_valid_mask.
  rewrite (masked_numerator mean_squared_error
             (fun x => x / dynamic_range (valid_labels y_true) ^ 2)); [reflexivity|].
  unfold Rdiv. apply Rmult_0_l.
Qed.

Lemma masked_mae_loss_valid (y_true y_pred : matrix) :
  masked_mae_loss y_true y_pred
  = sum_over_valid
      (fun t p => mean_absolute_error t p / dynamic_range (valid_labels y_true))
      y_true y_pred
    / valid_count y_true * 1000.
Proof.
  unfold masked_mae_loss. cbv zeta.
  rewrite boolean_mask_labels, reduce_sum_valid_mask.
  rewrite (masked_numerator mean_absolute_error
             (fun x => x / dynamic_range (valid_labels y_true))); [reflexivity|].
  unfold Rdiv. apply Rmult_0_l.
Qed.

Lemma masked_huber_loss_valid (y_true y_pred : matrix) :
  masked_huber_loss y_true y_pred
  = sum_over_valid (huber 1.0) y_true y_pred / valid_count y_true / batch_size y_true.
Proof.
  unfold masked_huber_loss. cbv zeta.
  rewrite reduce_sum_valid_mask.
  rewrite <- (tmap_id_ext (tmap2 Rmult _ _)).
  now rewrite (masked_numerator (huber 1.0) (fun x => x)).
Qed.

Lemma masked_bce_loss_valid (y_true y_pred : matrix) :
  masked_bce_loss y_true y_pred
  = sum_over_valid binary_crossentropy y_true y_pred / valid_count y_true
    / batch_size y_true.
Proof.
  unfold masked_bce_loss. cbv zeta.
  rewrite reduce_sum_valid_mask.
  rewrite <- (tmap_id_ext (tmap2 Rmult _ _)).
  now rewrite (masked_numerator binary_crossentropy (fun x => x)).
Qed.

Lemma zero_label_penalty_rows (bce_weight : R) (rt rp : vector) :
  map2 Rmult
    (map (Rmult bce_weight)
       (map2 binary_crossentropy (map (fun _ : R => 0) rp)
          (map (fun p => clip_by_value p 0.001 0.999) rp)))
    (map cast_float32 (map (fun x => Reqb x 0.0) rt))
  = map2 (zero_label_penalty bce_weight) rt rp.
Proof.
  rewrite map2_map_r, !map_map, map2_map_left, map2_map_right, map2_flip.
  reflexivity.
Qed.

Lemma zero_label_penalty_tensor (bce_weight : R) (y_true y_pred : matrix) :
  tmap2 Rmult
    (tmap (Rmult bce_weight)
       (tmap2 binary_crossentropy (tmap (fun _ : R => 0) y_pred)
          (tmap (fun p => clip_by_value p 0.001 0.999) y_pred)))
    (tf_cast (tf_equal y_true 0.0))
  = tmap2 (zero_label_penalty bce_weight) y_true y_pred.
Proof.
  unfold tf_cast, tf_equal, tmap, tmap2.
  rewrite map2_map_r, !map_map, map2_map_left, map2_map_right, map2_flip.
  apply map2_ext; intros rt rp. apply zero_label_penalty_rows.
Qed.

Lemma masked_mse_bce_loss_valid (y_true y_pred : matrix) (bce_weight : R) :
  masked_mse_bce_loss y_true y_pred bce_weight
  = sum_over_valid
      (fun t p => mean_squared_error t p / dynamic_range (valid_labels y_true) ^ 2)
      y_true y_pred
    / valid_count y_true
    + sum_over_valid (zero_label_penalty bce_weight) y_true y_pred / valid_count y_true.
Proof.
  unfold masked_mse_bce_loss. cbv zeta.
  rewrite boolean_mask_labels, reduce_sum_valid_mask.
  rewrite (masked_numerator mean_squared_error
             (fun x => x / dynamic_range (valid_labels y_true) ^ 2))
    by (unfold Rdiv; apply Rmult_0_l).
  rewrite zero_label_penalty_tensor.
  rewrite <- (tmap_id_ext (tmap2 Rmult (tmap2 (zero_label_penalty bce_weight) _ _) _)).
  now rewrite (masked_numerator (zero_label_penalty bce_weight) (fun x => x)).
Qed.

Lemma custom_accuracy_metric_valid (y_true y_pred : matrix) :
  custom_accuracy_metric y_true y_pred
  = Rmin (100.0 * reduce_sum1 (map snd (valid_pairs y_true y_pred))
          / (reduce_sum1 (valid_labels y_true) + 1e-8))
      1000.0.
Proof.
  unfold custom_accuracy_metric. cbv zeta.
  fold (valid_mask y_true).
  now rewrite boolean_mask_labels, boolean_mask_predictions.
Qed.

(** C1. In every masked loss and in the accuracy metric a point whose label is
    exactly [-1.0] adds nothing to the error sum and is left out of the
    normaliser: each function equals the same formula computed over the
    non-sentinel points only, normalised by their number, by the sum of their
    labels or by the dynamic range of their labels. *)
Theorem masked_losses_ignore_sentinel (y_true y_pred : matrix) (bce_weight : R) :
  masked_mse_bce_loss y_true y_pred bce_weight
  = sum_over_valid
      (fun t p => mean_squared_error t p / dynamic_range (valid_labels y_true) ^ 2)
      y_true y_pred
    / valid_count y_true
    + sum_over_valid (zero_label_penalty bce_weight) y_true y_pred / valid_count y_true
  /\
  masked_mae_loss y_true y_pred
  = sum_over_valid
      (fun t p => mean_absolute_error t p / dynamic_range (valid_labels y_true))
      y_true y_pred
    / valid_count y_true * 1000
  /\
  masked_mse_loss y_true y_pred
  = sum_over_valid
      (fun t p => mean_squared_error t p / dynamic_range (valid_labels y_true) ^ 2)
      y_true y_pred
    / valid_count y_true
  /\
  masked_huber_loss y_true y_pred
  = sum_over_valid (huber 1.0) y_true y_pred / valid_count y_true / batch_size y_true
  /\
  masked_bce_loss y_true y_pred
  = sum_over_valid binary_crossentropy y_true y_pred / valid_count y_true
    / batch_size y_true
  /\
  custom_accuracy_metric y_true y_pred
  = Rmin (100.0 * reduce_sum1 (map snd (valid_pairs y_true y_pred))
          / (reduce_sum1 (valid_labels y_true) + 1e-8))
      1000.0.
Proof.
  split; [apply masked_mse_bce_loss_valid|].
  split; [apply masked_mae_loss_valid|].
  split; [apply masked_mse_loss_valid|].
  split; [apply masked_huber_loss_valid|].
  split; [apply masked_bce_loss_valid|].
  apply custom_accuracy_metric_valid.
Qed.

(** C3. [custom_accuracy_metric] is 100 times the sum of the predictions over
    the non-sentinel points divided by the sum of their labels plus [1e-8],
    capped at 1000: whatever the inputs, the value never exceeds 1000. *)
Theorem custom_accuracy_metric_capped (y_true y_pred : matrix) :
  custom_accuracy_metric y_true y_pred
  = Rmin (100 * reduce_sum1 (map snd (valid_pairs y_true y_pred))
          / (reduce_sum1 (valid_labels y_true) + 1e-8))
      1000
  /\ custom_accuracy_metric y_true y_pred <= 1000.
Proof.
  rewrite custom_accuracy_metric_valid.
  replace 100.0 with 100 by lra. replace 1000.0 with 1000 by lra.
  split; [reflexivity | apply Rmin_r].
Qed.

(** ** Denominators of the losses *)

Lemma filter_valid_nil (l : vector) :
  length (filter is_valid l) = O <-> Forall (fun t => t = sentinel) l.
Proof.
  induction l as [|t l IH]; simpl.
  - split; auto.
  - destruct (is_valid t) eqn:E; simpl.
    + split; [discriminate|]. intros H. inversion H; subst.
      rewrite is_valid_sentinel in E. discriminate.
    + unfold is_valid in E. rewrite negb_false_iff in E. apply Reqb_true in E.
      rewrite IH. split; intros H; [constructor; auto | now inversion H].
Qed.

Lemma valid_count_zero (y_true : matrix) :
  valid_count y_true = 0 <-> all_sentinel y_true.
Proof.
  unfold valid_count, valid_labels, all_sentinel. rewrite <- filter_valid_nil.
  split; intros H.
  - now apply INR_eq.
  - now rewrite H.
Qed.

Lemma valid_count_ge_1 (y_true : matrix) :
  ~ all_sentinel y_true -> 1 <= valid_count y_true.
Proof.
  intros H. unfold valid_count.
  destruct (length (valid_labels y_true)) as [|n] eqn:E.
  - exfalso. apply H. apply valid_count_zero. unfold valid_count. now rewrite E.
  - rewrite S_INR. pose proof (pos_INR n). lra.
Qed.

Lemma batch_size_ge_1 (y_true : matrix) :
  ~ all_sentinel y_true -> 1 <= batch_size y_true.
Proof.
  intros H. unfold batch_size. destruct y_true as [|row y_true].
  - exfalso. apply H. constructor.
  - simpl length. rewrite S_INR. pose proof (pos_INR (length y_true)). lra.
Qed.

Lemma dynamic_range_positive (v : vector) : 1e-5 <= dynamic_range v.
Proof.
  destruct v as [|x rest]; simpl; [lra | apply Rmax_r].
Qed.

Lemma reduce_sum1_nonneg (l : vector) :
  Forall (fun t => 0 <= t) l -> 0 <= reduce_sum1 l.
Proof.
  unfold reduce_sum1. induction 1; simpl; lra.
Qed.

Lemma valid_labels_nonneg (y_true : matrix) :
  nonnegative_labels y_true -> Forall (fun t => 0 <= t) (valid_labels y_true).
Proof.
  unfold nonnegative_labels, valid_labels. intros H.
  apply Forall_forall. intros t Hin. apply filter_In in Hin. destruct Hin as [Hin Hv].
  rewrite Forall_forall in H. destruct (H t Hin) as [E|E]; [|exact E].
  apply is_valid_true in Hv. contradiction.
Qed.

Lemma custom_accuracy_metric_denominator_labels (y_true : matrix) :
  custom_accuracy_metric_denominator y_true = reduce_sum1 (valid_labels y_true) + 1e-8.
Proof.
  unfold custom_accuracy_metric_denominator. fold (valid_mask y_true).
  now rewrite boolean_mask_labels.
Qed.

Lemma valid_labels_all_sentinel (y_true : matrix) :
  all_sentinel y_true -> valid_labels y_true = [].
Proof.
  intros H. apply length_zero_iff_nil. now apply filter_valid_nil.
Qed.

(** C8, as the code has it.  Each masked loss is its numerator divided by the
    sum of the mask, with no epsilon: that sum is the number of non-sentinel
    labels, zero exactly when every label is [-1.0] and at least one
    otherwise; the other divisors (the dynamic range, the batch size) are then
    positive.  The accuracy metric divides by the sum of the non-sentinel
    labels plus [1e-8], which is [1e-8] when every label is the sentinel and
    at least [1e-8] when the non-sentinel labels are non-negative. *)
Theorem loss_denominators (y_true y_pred : matrix) (bce_weight : R) :
  (masked_mse_bce_loss y_true y_pred bce_weight
   = masked_mse_numerator y_true y_pred / masked_loss_denominator y_true
     + masked_bce_penalty_numerator y_true y_pred bce_weight
       / masked_loss_denominator y_true /\
   masked_mae_loss y_true y_pred
   = masked_mae_numerator y_true y_pred / masked_loss_denominator y_true * 1000 /\
   masked_mse_loss y_true y_pred
   = masked_mse_numerator y_true y_pred / masked_loss_denominator y_true /\
   masked_huber_loss y_true y_pred
   = masked_huber_numerator y_true y_pred / masked_loss_denominator y_true
     / batch_size y_true /\
   masked_bce_loss y_true y_pred
   = masked_bce_numerator y_true y_pred / masked_loss_denominator y_true
     / batch_size y_true /\
   custom_accuracy_metric y_true y_pred
   = Rmin (100.0 * reduce_sum1 (boolean_mask y_pred (tf_cast (tf_not_equal y_true sentinel)))
           / custom_accuracy_metric_denominator y_true)
       1000.0) /\
  (masked_loss_denominator y_true = 0 <-> all_sentinel y_true) /\
  (~ all_sentinel y_true ->
   1 <= masked_loss_denominator y_true /\ 1 <= batch_size y_true) /\
  1e-5 <= dynamic_range (boolean_mask y_true (valid_mask y_true)) /\
  (all_sentinel y_true -> custom_accuracy_metric_denominator y_true = 1e-8) /\
  (nonnegative_labels y_true -> 1e-8 <= custom_accuracy_metric_denominator y_true).
Proof.
  split; [repeat split|].
  unfold masked_loss_denominator. rewrite reduce_sum_valid_mask.
  split; [apply valid_count_zero|].
  split; [intros H; split; [now apply valid_count_ge_1 | now apply batch_size_ge_1]|].
  split; [apply dynamic_range_positive|].
  rewrite custom_accuracy_metric_denominator_labels.
  split.
  - intros H. rewrite (valid_labels_all_sentinel _ H). simpl. lra.
  - intros H. pose proof (reduce_sum1_nonneg _ (valid_labels_nonneg _ H)). lra.
Qed.

(** The epsilon of the accuracy metric does not guard every input: one label
    [-1e-8], which is not the sentinel, makes the denominator zero. *)
Lemma custom_accuracy_metric_denominator_zero :
  custom_accuracy_metric_denominator [[- 1e-8]] = 0 /\ (- 1e-8 <> sentinel).
Proof.
  assert (Hv : is_valid (- 1e-8) = true).
  { apply is_valid_true. unfold sentinel. lra. }
  split.
  - rewrite custom_accuracy_metric_denominator_labels.
    unfold valid_labels. simpl. rewrite Hv. simpl. lra.
  - unfold sentinel. lra.
Qed.

(** ** Reordering points *)

Lemma permute_map {A B : Type} (f : A -> B) (sigma : list nat) (l : list A) :
  permute sigma (map f l) = map f (permute sigma l).
Proof.
  unfold permute. induction sigma as [|i sigma IH]; simpl; [reflexivity|].
  rewrite map_app, IH, nth_error_map.
  destruct (nth_error l i); reflexivity.
Qed.

Lemma permute_seq_app {A : Type} (l1 l2 : list A) :
  permute (seq (length l1) (length l2)) (l1 ++ l2) = l2.
Proof.
  revert l1; induction l2 as [|a l2 IH]; intros l1; [reflexivity|].
  unfold permute in *. simpl.
  rewrite nth_error_app2 by lia. rewrite Nat.sub_diag. simpl. f_equal.
  specialize (IH (l1 ++ [a])).
  rewrite length_app, <- app_assoc in IH. simpl in IH.
  rewrite Nat.add_1_r in IH. exact IH.
Qed.

Lemma permute_identity {A : Type} (l : list A) : permute (seq 0 (length l)) l = l.
Proof.
  exact (permute_seq_app [] l).
Qed.

(** Reordering by a permutation of the indices rearranges the list. *)
Lemma permute_Permutation {A : Type} (sigma : list nat) (l : list A) :
  is_permutation (length l) sigma -> Permutation (permute sigma l) l.
Proof.
  intros H. rewrite <- (permute_identity l) at 2.
  unfold permute. now apply Permutation_flat_map.
Qed.

Lemma permute_length {A : Type} (sigma : list nat) (l : list A) :
  is_permutation (length l) sigma -> length (permute sigma l) = length l.
Proof.
  intros H. apply Permutation_length. now apply permute_Permutation.
Qed.

Lemma nth_error_same_length {A B : Type} (la : list A) (lb : list B) (i : nat) :
  length la = length lb ->
  (exists a b, nth_error la i = Some a /\ nth_error lb i = Some b) \/
  (nth_error la i = None /\ nth_error lb i = None).
Proof.
  intros Hlen. destruct (nth_error la i) as [a|] eqn:Ea.
  - left. destruct (nth_error lb i) as [b|] eqn:Eb; [eauto|].
    apply nth_error_None in Eb.
    assert (i < length la)%nat by (apply nth_error_Some; congruence). lia.
  - right. split; [reflexivity|]. apply nth_error_None in Ea. apply nth_error_None. lia.
Qed.

Lemma nth_error_map2 {A B C : Type} (f : A -> B -> C) (la : list A) (lb : list B)
  (i : nat) (a : A) (b : B) :
  nth_error la i = Some a -> nth_error lb i = Some b ->
  nth_error (map2 f la lb) i = Some (f a b).
Proof.
  revert lb i; induction la as [|a' la IH]; intros [|b' lb] [|i]; simpl; try discriminate.
  - congruence.
  - apply IH.
Qed.

Lemma permute_map2 {A B C : Type} (f : A -> B -> C) (sigma : list nat)
  (la : list A) (lb : list B) :
  length la = length lb ->
  map2 f (permute sigma la) (permute sigma lb) = permute sigma (map2 f la lb).
Proof.
  intros Hlen. unfold permute.
  induction sigma as [|i sigma IH]; simpl; [reflexivity|].
  destruct (nth_error_same_length la lb i Hlen) as [[a [b [Ea Eb]]]|[Ea Eb]].
  - rewrite Ea, Eb, (nth_error_map2 f la lb i a b Ea Eb). simpl. now rewrite IH.
  - rewrite Ea, Eb. simpl. rewrite IH.
    assert (E : nth_error (map2 f la lb) i = None).
    { apply nth_error_None. rewrite map2_length. apply nth_error_None in Ea. lia. }
    now rewrite E.
Qed.

Lemma permute_repeat_below {A : Type} (sigma : list nat) (a : A) (n : nat) :
  Forall (fun i => (i < n)%nat) sigma ->
  permute sigma (repeat a n) = repeat a (length sigma).
Proof.
  unfold permute. induction 1 as [|i sigma Hi _ IH]; simpl; [reflexivity|].
  rewrite nth_error_repeat by exact Hi. simpl. now rewrite IH.
Qed.

Lemma is_permutation_length (n : nat) (sigma : list nat) :
  is_permutation n sigma -> length sigma = n.
Proof.
  intros H. rewrite (Permutation_length H). apply length_seq.
Qed.

Lemma is_permutation_below (n : nat) (sigma : list nat) :
  is_permutation n sigma -> Forall (fun i => (i < n)%nat) sigma.
Proof.
  intros H. apply Forall_forall. intros i Hi.
  apply (Permutation_in _ H) in Hi. apply in_seq in Hi. lia.
Qed.

Lemma permute_repeat {A : Type} (sigma : list nat) (a : A) (n : nat) :
  is_permutation n sigma -> permute sigma (repeat a n) = repeat a n.
Proof.
  intros H. rewrite permute_repeat_below by now apply is_permutation_below.
  now rewrite (is_permutation_length n sigma H).
Qed.

(** ** Global max pooling *)

Lemma vmax_comm (a b : vector) : map2 Rmax a b = map2 Rmax b a.
Proof.
  revert b; induction a as [|x a IH]; intros [|y b]; simpl; auto.
  now rewrite Rmax_comm, IH.
Qed.

Lemma vmax_swap (a b c : vector) :
  map2 Rmax (map2 Rmax a b) c = map2 Rmax (map2 Rmax a c) b.
Proof.
  revert b c; induction a as [|x a IH]; intros [|y b] [|z c]; simpl; auto.
  rewrite IH. f_equal.
  rewrite <- !Rmax_assoc. f_equal. apply Rmax_comm.
Qed.

Lemma fold_vmax_Permutation (l l' : matrix) :
  Permutation l l' ->
  forall a, fold_left (map2 Rmax) l a = fold_left (map2 Rmax) l' a.
Proof.
  induction 1 as [|x l l' _ IH|x y l|l l' l'' _ IH1 _ IH2]; intros a; simpl.
  - reflexivity.
  - apply IH.
  - now rewrite vmax_swap.
  - now rewrite IH1.
Qed.

Lemma fold_vmax_head (l : matrix) (a b : vector) :
  fold_left (map2 Rmax) l (map2 Rmax a b) = fold_left (map2 Rmax) (a :: l) b.
Proof.
  simpl. now rewrite vmax_comm.
Qed.

(** The pooled feature does not depend on the order of the points. *)
Lemma GlobalMaxPooling1D_Permutation (x x' : matrix) :
  Permutation x x' -> GlobalMaxPooling1D x = GlobalMaxPooling1D x'.
Proof.
  induction 1 as [|p l l' H _|p q l|l l' l'' _ IH1 _ IH2]; simpl.
  - reflexivity.
  - now apply fold_vmax_Permutation.
  - now rewrite vmax_comm.
  - now rewrite IH1.
Qed.

(** ** The model, point by point *)

Lemma conv_mlp_map (w : block_weights) (x : matrix) (filters : nat) (d : option R) :
  conv_mlp w x filters d
  = map (fun p => BatchNormalization (norm w) (map relu (Dense filters (linear w) p))) x.
Proof.
  unfold conv_mlp, Conv1D, Dropout. rewrite map_map. now destruct d.
Qed.

Lemma conv_mlp_permute (w : block_weights) (sigma : list nat) (x : matrix)
  (filters : nat) (d : option R) :
  conv_mlp w (permute sigma x) filters d = permute sigma (conv_mlp w x filters d).
Proof.
  now rewrite !conv_mlp_map, permute_map.
Qed.

Lemma conv_mlp_length (w : block_weights) (x : matrix) (filters : nat) (d : option R) :
  length (conv_mlp w x filters d) = length x.
Proof.
  rewrite conv_mlp_map. apply length_map.
Qed.

Lemma Dot_2_1_permute (sigma : list nat) (x T : matrix) :
  Dot_2_1 (permute sigma x) T = permute sigma (Dot_2_1 x T).
Proof.
  unfold Dot_2_1. symmetry. apply permute_map.
Qed.

Lemma Dot_2_1_length (x T : matrix) : length (Dot_2_1 x T) = length x.
Proof.
  unfold Dot_2_1. apply length_map.
Qed.

(** The transform a T-Net predicts does not depend on the order of the
    points. *)
Lemma TNet_permute (w : TNet_weights) (sigma : list nat) (x : matrix) (size : nat)
  (add_regularization : bool) :
  is_permutation (length x) sigma ->
  TNet w (permute sigma x) size add_regularization = TNet w x size add_regularization.
Proof.
  intros H. unfold TNet. cbv zeta.
  rewrite !conv_mlp_permute.
  rewrite (GlobalMaxPooling1D_Permutation
             (permute sigma (conv_mlp (tnet_conv3 w)
                (conv_mlp (tnet_conv2 w) (conv_mlp (tnet_conv1 w) x 64 None) 128 None)
                1024 None))
             (conv_mlp (tnet_conv3 w)
                (conv_mlp (tnet_conv2 w) (conv_mlp (tnet_conv1 w) x 64 None) 128 None)
                1024 None)).
  - reflexivity.
  - apply permute_Permutation. now rewrite !conv_mlp_length.
Qed.

Lemma point_features_length (w : PointNet_weights) (x : matrix) :
  length (point_features w x) = length x.
Proof.
  unfold point_features. cbv zeta. now rewrite !conv_mlp_length, Dot_2_1_length.
Qed.

(** The per-point features follow the points. *)
Lemma point_features_permute (w : PointNet_weights) (sigma : list nat) (x : matrix) :
  is_permutation (length x) sigma ->
  point_features w (permute sigma x) = permute sigma (point_features w x).
Proof.
  intros H. unfold point_features. cbv zeta.
  now rewrite (TNet_permute _ _ _ _ _ H), Dot_2_1_permute, !conv_mlp_permute.
Qed.

(** The global feature does not depend on the order of the points. *)
Lemma global_feature_permute (w : PointNet_weights) (sigma : list nat) (x : matrix) :
  is_permutation (length x) sigma ->
  global_feature w (permute sigma x) = global_feature w x.
Proof.
  intros H.
  assert (H' : is_permutation (length (point_features w x)) sigma)
    by now rewrite point_features_length.
  unfold global_feature. cbv zeta.
  rewrite (point_features_permute w sigma x H).
  rewrite (TNet_permute _ _ _ _ _ H'), Dot_2_1_permute, !conv_mlp_permute.
  apply GlobalMaxPooling1D_Permutation, permute_Permutation.
  now rewrite !conv_mlp_length, Dot_2_1_length.
Qed.

Lemma Conv1D_permute (filters : nat) (act : R -> R) (w : layer_weights)
  (sigma : list nat) (x : matrix) :
  Conv1D filters act w (permute sigma x) = permute sigma (Conv1D filters act w x).
Proof.
  unfold Conv1D. symmetry. apply permute_map.
Qed.

Lemma segmentation_scores_permute (num_classes : nat) (w : PointNet_weights)
  (sigma : list nat) (x : matrix) :
  is_permutation (length x) sigma ->
  segmentation_scores (length x) num_classes w (permute sigma x)
  = permute sigma (segmentation_scores (length x) num_classes w x).
Proof.
  intros H. unfold segmentation_scores. cbv zeta.
  rewrite (global_feature_permute w sigma x H), (point_features_permute w sigma x H).
  unfold Concatenate, tile_points.
  rewrite <- (permute_repeat sigma (global_feature w x) (length x) H) at 1.
  rewrite permute_map2 by now rewrite point_features_length, repeat_length.
  now rewrite !conv_mlp_permute, Conv1D_permute.
Qed.

Lemma segmentation_scores_length (num_classes : nat) (w : PointNet_weights) (x : matrix) :
  length (segmentation_scores (length x) num_classes w x) = length x.
Proof.
  unfold segmentation_scores, Conv1D, Concatenate, tile_points. cbv zeta.
  rewrite length_map, !conv_mlp_length, map2_length, point_features_length, repeat_length.
  apply Nat.min_id.
Qed.

Lemma segmentation_event_permute (num_classes : nat) (w : PointNet_weights)
  (sigma : list nat) (x : matrix) :
  is_permutation (length x) sigma ->
  segmentation_event (length x) num_classes w (permute sigma x)
  = permute sigma (segmentation_event (length x) num_classes w x).
Proof.
  intros H. unfold segmentation_event. cbv zeta.
  rewrite (segmentation_scores_permute num_classes w sigma x H).
  unfold tmap. rewrite <- !permute_map.
  apply permute_map2.
  now rewrite !length_map, segmentation_scores_length.
Qed.

Lemma has_shape3_input_ok (b n : nat) (batch : tensor3) :
  has_shape3 b n num_features batch -> forallb (input_shape_ok n) batch = true.
Proof.
  intros [_ H]. apply forallb_forall. intros event Hin.
  rewrite Forall_forall in H. destruct (H event Hin) as [Hn Hf].
  unfold input_shape_ok. apply andb_true_iff. split.
  - now apply Nat.eqb_eq.
  - apply forallb_forall. intros p Hp. rewrite Forall_forall in Hf.
    apply Nat.eqb_eq. now apply Hf.
Qed.

Lemma has_shape3_event (b n f : nat) (batch : tensor3) (event : matrix) :
  has_shape3 b n f batch -> In event batch -> length event = n.
Proof.
  intros [_ H] Hin. rewrite Forall_forall in H. now destruct (H event Hin).
Qed.

(** On a batch of events of shape (num_points, 6) the model returns a
    prediction for every event. *)
Lemma PointNetSegmentation_defined (b num_points num_classes : nat)
  (w : PointNet_weights) (batch : tensor3) :
  has_shape3 b num_points num_features batch ->
  PointNetSegmentation num_points num_classes w batch
  = Some (map (segmentation_event num_points num_classes w) batch).
Proof.
  intros H. unfold PointNetSegmentation. now rewrite (has_shape3_input_ok b _ _ H).
Qed.

Lemma has_shape3_permute (b n f : nat) (sigma : list nat) (batch : tensor3) :
  is_permutation n sigma -> has_shape3 b n f batch ->
  has_shape3 b n f (map (permute sigma) batch).
Proof.
  intros Hs [Hb H]. split; [now rewrite length_map|].
  apply Forall_map. eapply Forall_impl; [|exact H].
  intros event [Hn Hf].
  subst n.
  split.
  - apply permute_length. exact Hs.
  - eapply Permutation_Forall; [|exact Hf].
    apply Permutation_sym. apply permute_Permutation. exact Hs.
Qed.

(** C4. Reordering the points of every event by a permutation leaves the
    globally max-pooled feature of each event unchanged, and the model's
    per-point outputs are the outputs of the original order, reordered by the
    same permutation. *)
Theorem PointNetSegmentation_permutation (b num_points num_classes : nat)
  (w : PointNet_weights) (sigma : list nat) (batch : tensor3) :
  is_permutation num_points sigma ->
  has_shape3 b num_points num_features batch ->
  (forall event, In event batch ->
     global_feature w (permute sigma event) = global_feature w event) /\
  exists out,
    PointNetSegmentation num_points num_classes w batch = Some out /\
    PointNetSegmentation num_points num_classes w (map (permute sigma) batch)
    = Some (map (permute sigma) out).
Proof.
  intros Hs Hb. split.
  - intros event Hin. apply global_feature_permute.
    now rewrite (has_shape3_event _ _ _ _ _ Hb Hin).
  - exists (map (segmentation_event num_points num_classes w) batch).
    split; [now apply (PointNetSegmentation_defined b)|].
    rewrite (PointNetSegmentation_defined b)
      by now apply has_shape3_permute.
    f_equal. rewrite !map_map. apply map_ext_in. intros event Hin.
    pose proof (has_shape3_event _ _ _ _ _ Hb Hin) as Hn.
    rewrite <- Hn. apply segmentation_event_permute. now rewrite Hn.
Qed.

(** ** The segmentation head *)

Lemma sigmoid_bounds (x : R) : 0 < sigmoid x < 1.
Proof.
  unfold sigmoid. pose proof (exp_pos (- x)) as He.
  assert (Hd : 1 < 1 + exp (- x)) by lra.
  split.
  - apply Rdiv_lt_0_compat; lra.
  - apply (Rmult_lt_reg_r (1 + exp (- x))); [lra|].
    unfold Rdiv. rewrite Rmult_assoc, Rinv_l by lra. lra.
Qed.

Lemma Conv1D_nth (filters : nat) (act : R -> R) (w : layer_weights) (x : matrix)
  (i : nat) :
  (i < length x)%nat ->
  exists row, nth_error (Conv1D filters act w x) i = Some row /\ length row = filters.
Proof.
  intros Hi. unfold Conv1D.
  destruct (nth_error x i) as [p|] eqn:E.
  - exists (map act (Dense filters w p)). split.
    + exact (map_nth_error (fun q => map act (Dense filters w q)) i x E).
    + unfold Dense. now rewrite !length_map, length_seq.
  - apply nth_error_None in E. lia.
Qed.

(** Every output of the model is the sigmoid of the point's score times the
    point's energy, the input feature at index 4. *)
Lemma segmentation_event_nth (num_classes : nat) (w : PointNet_weights) (x : matrix)
  (i : nat) (p : vector) :
  nth_error x i = Some p ->
  exists scores,
    nth_error (segmentation_scores (length x) num_classes w x) i = Some scores /\
    length scores = num_classes /\
    nth_error (segmentation_event (length x) num_classes w x) i
    = Some (map (fun s => sigmoid s * nth 4 p 0) scores).
Proof.
  intros Hp.
  assert (Hi : (i < length x)%nat) by (apply nth_error_Some; congruence).
  assert (Hs : exists scores,
             nth_error (segmentation_scores (length x) num_classes w x) i = Some scores /\
             length scores = num_classes).
  { unfold segmentation_scores. cbv zeta.
    apply Conv1D_nth. unfold Concatenate, tile_points.
    rewrite !conv_mlp_length, map2_length, point_features_length, repeat_length,
      Nat.min_id.
    exact Hi. }
  destruct Hs as [scores [Hs Hlen]]. exists scores. split; [exact Hs|]. split; [exact Hlen|].
  unfold segmentation_event. cbv zeta.
  rewrite (nth_error_map2 _ _ _ i (map sigmoid scores) (nth 4 p 0)).
  - f_equal. rewrite map_map. reflexivity.
  - unfold tmap. now apply map_nth_error.
  - now apply (map_nth_error (fun p => nth 4 p 0)).
Qed.

(** The output of the model at point [i] of event [k] of a well-shaped batch. *)
Lemma PointNetSegmentation_nth (b num_points num_classes : nat) (w : PointNet_weights)
  (batch : tensor3) (k i : nat) (event : matrix) (p : vector) :
  has_shape3 b num_points num_features batch ->
  nth_error batch k = Some event -> nth_error event i = Some p ->
  exists out row scores,
    PointNetSegmentation num_points num_classes w batch = Some out /\
    nth_error out k = Some row /\
    nth_error (segmentation_scores num_points num_classes w event) i = Some scores /\
    length scores = num_classes /\
    nth_error row i = Some (map (fun s => sigmoid s * nth 4 p 0) scores).
Proof.
  intros Hb Hk Hi.
  assert (Hn : length event = num_points).
  { eapply has_shape3_event; [exact Hb|]. eapply nth_error_In; eauto. }
  destruct (segmentation_event_nth num_classes w event i p Hi) as [scores [Hs [Hl Ho]]].
  rewrite Hn in Hs, Ho.
  exists (map (segmentation_event num_points num_classes w) batch),
    (segmentation_event num_points num_classes w event), scores.
  split; [now apply (PointNetSegmentation_defined b)|].
  split; [now apply map_nth_error|]. auto.
Qed.


Lemma has_shape3_single (p : vector) :
  length p = num_features -> has_shape3 1 1 num_features [[p]].
Proof.
  intros H. split; [reflexivity|]. repeat constructor. exact H.
Qed.



(** C2, as the code has it.  The model never applies [CustomMaskingLayer]: the
    prediction of a point is zero when its energy feature is zero and is not
    zero otherwise, whatever its type feature. *)
Theorem segmentation_output_zero_iff_energy_zero (b num_points num_classes : nat)
  (w : PointNet_weights) (batch : tensor3) (k i : nat) (event : matrix) (p : vector) :
  has_shape3 b num_points num_features batch ->
  nth_error batch k = Some event -> nth_error event i = Some p ->
  exists out row q,
    PointNetSegmentation num_points num_classes w batch = Some out /\
    nth_error out k = Some row /\ nth_error row i = Some q /\
    length q = num_classes /\
    (nth 4 p 0 = 0 -> Forall (fun o => o = 0) q) /\
    (nth 4 p 0 <> 0 -> Forall (fun o => o <> 0) q).
Proof.
  intros Hb Hk Hi.
  destruct (PointNetSegmentation_nth b num_points num_classes w batch k i event p Hb Hk Hi)
    as [out [row [scores [Ho [Hr [Hs [Hl Hq]]]]]]].
  exists out, row, (map (fun s => sigmoid s * nth 4 p 0) scores).
  repeat (split; [assumption|]).
  split; [now rewrite length_map|].
  split; intros He; apply Forall_map, Forall_forall; intros s _.
  - rewrite He. lra.
  - pose proof (sigmoid_bounds s). nra.
Qed.

(** A padding point (type [-1]) that carries energy is predicted a non-zero
    energy: it is not masked out. *)
Lemma padding_point_not_masked :
  exists out row q o,
    PointNetSegmentation 1 1 blank_weights [[[0; 0; 0; 0; 2; -1]]] = Some out /\
    last [0; 0; 0; 0; 2; -1] 0 = -1 /\
    nth_error out 0 = Some row /\ nth_error row 0 = Some q /\ In o q /\
    0 < o.
Proof.
  destruct (PointNetSegmentation_nth 1 1 1 blank_weights [[[0; 0; 0; 0; 2; -1]]] 0 0
              [[0; 0; 0; 0; 2; -1]] [0; 0; 0; 0; 2; -1]
              (has_shape3_single [0; 0; 0; 0; 2; -1] eq_refl) eq_refl eq_refl)
    as [out [row [scores [Ho [Hr [_ [Hl Hq]]]]]]].
  destruct scores as [|s [|s' scores]]; try discriminate Hl.
  exists out, row, [sigmoid s * nth 4 [0; 0; 0; 0; 2; -1] 0], (sigmoid s * 2).
  split; [assumption|]. split; [reflexivity|].
  repeat (split; [assumption|]).
  split; [left; reflexivity|].
  pose proof (sigmoid_bounds s). lra.
Qed.

(** ** OrthogonalRegularizer *)

Lemma chunks_length {A : Type} (count width : nat) (l : list A) :
  length (chunks count width l) = count.
Proof.
  revert l; induction count as [|c IH]; intros l; simpl; [reflexivity|]. now rewrite IH.
Qed.

Lemma chunks_rows {A : Type} (count width : nat) (l : list A) :
  length l = (count * width)%nat ->
  Forall (fun r => length r = width) (chunks count width l).
Proof.
  revert l; induction count as [|c IH]; intros l Hl; simpl; constructor.
  - rewrite length_firstn. simpl in Hl. lia.
  - apply IH. rewrite length_skipn. simpl in Hl. lia.
Qed.

(** Splitting the row-major data of a matrix gives the matrix back. *)
Lemma chunks_concat {A : Type} (width : nat) (M : list (list A)) :
  Forall (fun r => length r = width) M ->
  chunks (length M) width (concat M) = M.
Proof.
  induction 1 as [|r M Hr _ IH]; simpl; [reflexivity|].
  assert (Hf : firstn width (r ++ concat M) = r).
  { rewrite <- Hr, firstn_app, Nat.sub_diag, firstn_all. simpl. apply app_nil_r. }
  assert (Hs : skipn width (r ++ concat M) = concat M).
  { rewrite <- Hr, skipn_app, Nat.sub_diag, skipn_all. reflexivity. }
  now rewrite Hf, Hs, IH.
Qed.

Lemma concat_rows_length {A : Type} (width : nat) (M : list (list A)) :
  Forall (fun r => length r = width) M ->
  length (concat M) = (length M * width)%nat.
Proof.
  induction 1 as [|r M Hr _ IH]; simpl; [reflexivity|].
  rewrite length_app, IH, Hr. reflexivity.
Qed.

Lemma concat_singletons {A B : Type} (f : A -> B) (l : list A) :
  concat (map (fun a => [f a]) l) = map f l.
Proof.
  induction l as [|a l IH]; simpl; [reflexivity|]. now rewrite IH.
Qed.

(** The data of one [n]-by-[n] matrix reshapes to that one matrix. *)
Lemma reshape_matrices_single (n : nat) (flat : vector) :
  (0 < n)%nat -> length flat = (n * n)%nat ->
  OrthogonalRegularizer.reshape_matrices n flat = Some [chunks n n flat].
Proof.
  intros Hn Hl. unfold OrthogonalRegularizer.reshape_matrices.
  assert (Hnn : (n * n)%nat <> O) by nia.
  replace (Nat.eqb n 0) with false by (symmetry; apply Nat.eqb_neq; lia).
  rewrite Hl, Nat.Div0.mod_same, Nat.div_same by exact Hnn.
  simpl Nat.eqb. cbv iota. unfold reshape3. rewrite Nat.mul_1_l.
  simpl chunks at 1. f_equal. f_equal.
  rewrite <- (chunks_length n n flat) at 1. apply firstn_all.
Qed.

Lemma gram_shape (M : matrix) :
  Forall (fun r => length r = length M) (gram M).
Proof.
  unfold gram. apply Forall_map, Forall_forall. intros r _. apply length_map.
Qed.

Lemma gram_length (M : matrix) : length (gram M) = length M.
Proof.
  unfold gram. apply length_map.
Qed.

(** On one matrix the tensor contraction is the product with the transpose. *)
Lemma flatten4_tensordot_single (M : matrix) :
  flatten4 (tensordot_2_2 [M] [M]) = concat (gram M).
Proof.
  unfold flatten4, tensordot_2_2, gram. simpl. rewrite app_nil_r. f_equal.
  apply (concat_singletons (fun row_i => map (fun row_j => dot row_i row_j) M)).
Qed.

(** The penalty of one matrix: [l2] times the sum of the squared entries of
    the difference between its product with its transpose and the identity. *)
Lemma call_single_matrix (self : OrthogonalRegularizer.t) (inputs : vector) :
  let n := OrthogonalRegularizer.num_features self in
  (0 < n)%nat -> length inputs = (n * n)%nat ->
  OrthogonalRegularizer.__call__ self inputs
  = Some (reduce_sum (tmap (fun d => OrthogonalRegularizer.l2 self * d ^ 2)
                        (tmap2 Rminus (gram (chunks n n inputs)) (eye n)))).
Proof.
  intros n Hn Hl. unfold OrthogonalRegularizer.__call__. fold n.
  rewrite (reshape_matrices_single n inputs Hn Hl).
  rewrite flatten4_tensordot_single.
  assert (Hg : length (concat (gram (chunks n n inputs))) = (n * n)%nat).
  { rewrite (concat_rows_length (length (chunks n n inputs))) by apply gram_shape.
    now rewrite gram_length, chunks_length. }
  rewrite (reshape_matrices_single n _ Hn Hg).
  assert (Hc : chunks n n (concat (gram (chunks n n inputs))) = gram (chunks n n inputs)).
  { pose proof (chunks_concat _ _ (gram_shape (chunks n n inputs))) as H.
    now rewrite gram_length, !chunks_length in H. }
  rewrite Hc. unfold OrthogonalRegularizer.I. fold n.
  unfold reduce_sum1. simpl. f_equal. lra.
Qed.

Lemma squares_vector (c : R) (a b : vector) :
  0 < c -> length a = length b ->
  0 <= reduce_sum1 (map (fun d => c * d ^ 2) (map2 Rminus a b)) /\
  (reduce_sum1 (map (fun d => c * d ^ 2) (map2 Rminus a b)) = 0 <-> a = b).
Proof.
  intros Hc. revert b; induction a as [|x a IH]; intros [|y b] Hl; simpl in Hl;
    try discriminate.
  - simpl. split; [lra | tauto].
  - injection Hl as Hl. destruct (IH b Hl) as [H0 Hiff].
    unfold reduce_sum1 in *. cbn [map map2 fold_right].
    set (rest := fold_right Rplus 0 (map (fun d => c * d ^ 2) (map2 Rminus a b))) in *.
    pose proof (pow2_ge_0 (x - y)) as Hp.
    assert (Hsq : 0 <= c * (x - y) ^ 2) by (apply Rmult_le_pos; lra).
    split; [lra|]. split.
    + intros H. assert (Hr : rest = 0) by lra.
      apply Hiff in Hr. subst b. f_equal.
      assert (Hz : (x - y) ^ 2 = 0) by nra.
      destruct (Req_dec (x - y) 0) as [E|E]; [lra|].
      exfalso. exact (pow_nonzero _ 2 E Hz).
    + intros H. injection H as Ex Eb.
      assert (Hr : rest = 0) by now apply Hiff.
      rewrite Hr, Ex. replace (y - y) with 0 by lra. simpl. lra.
Qed.

Lemma squares_matrix (c : R) (G J : matrix) :
  0 < c -> Forall2 (fun r r' => length r = length r') G J ->
  0 <= reduce_sum (tmap (fun d => c * d ^ 2) (tmap2 Rminus G J)) /\
  (reduce_sum (tmap (fun d => c * d ^ 2) (tmap2 Rminus G J)) = 0 <-> G = J).
Proof.
  intros Hc. induction 1 as [|r r' G J Hr _ IH].
  - simpl. unfold reduce_sum. simpl. split; [lra | tauto].
  - unfold tmap, tmap2 in *. cbn [map map2]. rewrite reduce_sum_cons.
    destruct (squares_vector c r r' Hc Hr) as [H0 Hv]. destruct IH as [H1 Hm].
    split; [lra|]. split.
    + intros H. f_equal; [apply Hv | apply Hm]; lra.
    + intros H. injection H as Er EG.
      apply Hv in Er. apply Hm in EG. lra.
Qed.

Lemma eye_length (n : nat) : length (eye n) = n.
Proof.
  unfold eye. now rewrite length_map, length_seq.
Qed.

Lemma eye_rows (n : nat) : Forall (fun r => length r = n) (eye n).
Proof.
  unfold eye. apply Forall_map, Forall_forall. intros i _.
  now rewrite length_map, length_seq.
Qed.

Lemma same_shape (n m : nat) (G J : matrix) :
  length G = m -> length J = m ->
  Forall (fun r => length r = n) G -> Forall (fun r => length r = n) J ->
  Forall2 (fun r r' => length r = length r') G J.
Proof.
  intros HG HJ HrG. revert m J HG HJ.
  induction HrG as [|r G Hr _ IH]; intros m [|r' J] HG HJ HrJ; simpl in *;
    try (subst m; discriminate); constructor.
  - inversion HrJ; subst. congruence.
  - inversion HrJ; subst. eapply IH; eauto.
Qed.

Lemma indicator_sum (h : nat -> R) (i a m : nat) :
  reduce_sum1 (map (fun k => if Nat.eqb i k then h k else 0) (seq a m))
  = if (a <=? i)%nat && (i <? a + m)%nat then h i else 0.
Proof.
  unfold reduce_sum1. revert a; induction m as [|m IH]; intros a.
  - simpl. destruct (Nat.leb_spec a i), (Nat.ltb_spec i (a + 0)); simpl; auto. lia.
  - cbn [seq map fold_right]. rewrite IH.
    destruct (Nat.eqb_spec i a) as [->|Hne].
    + destruct (Nat.leb_spec (S a) a); [lia|].
      destruct (Nat.leb_spec a a); [|lia].
      destruct (Nat.ltb_spec a (a + S m)); [|lia]. simpl. lra.
    + destruct (Nat.leb_spec (S a) i), (Nat.leb_spec a i),
        (Nat.ltb_spec i (S a + m)), (Nat.ltb_spec i (a + S m)); simpl; lra || lia.
Qed.

Lemma dot_eye_rows (n i j : nat) :
  (i < n)%nat ->
  dot (map (fun k => if Nat.eqb i k then 1 else 0) (seq 0 n))
      (map (fun k => if Nat.eqb j k then 1 else 0) (seq 0 n))
  = if Nat.eqb i j then 1 else 0.
Proof.
  intros Hi. unfold dot. rewrite map2_map_r.
  rewrite (map_ext _ (fun k => if Nat.eqb i k
                               then (fun k' => if Nat.eqb j k' then 1 else 0) k else 0)).
  - rewrite indicator_sum.
    destruct (Nat.leb_spec 0 i); [|lia]. destruct (Nat.ltb_spec i (0 + n)); [|lia].
    simpl. now rewrite Nat.eqb_sym.
  - intros k. destruct (Nat.eqb i k); lra.
Qed.

(** The identity matrix times its transpose is the identity. *)
Lemma gram_eye (n : nat) : gram (eye n) = eye n.
Proof.
  unfold gram, eye. rewrite map_map. apply map_ext_in. intros i Hi.
  apply in_seq in Hi. rewrite map_map. apply map_ext. intros j.
  apply dot_eye_rows. lia.
Qed.

(** What TensorFlow computes for the one-by-one matrices [1] and [-1], for
    two two-by-two identity matrices in one input, and for one such matrix. *)
Lemma call_unit_matrix :
  OrthogonalRegularizer.__call__ (OrthogonalRegularizer.__init__ 1 0.001) [1] = Some 0.
Proof.
  unfold OrthogonalRegularizer.__call__, OrthogonalRegularizer.__init__, reduce_sum,
    reduce_sum1. simpl. unfold dot, reduce_sum1. simpl. f_equal. lra.
Qed.

Lemma call_minus_unit_matrix :
  OrthogonalRegularizer.__call__ (OrthogonalRegularizer.__init__ 1 0.001) [-1] = Some 0.
Proof.
  unfold OrthogonalRegularizer.__call__, OrthogonalRegularizer.__init__, reduce_sum,
    reduce_sum1. simpl. unfold dot, reduce_sum1. simpl. f_equal. lra.
Qed.

Lemma call_two_identities :
  OrthogonalRegularizer.__call__ (OrthogonalRegularizer.__init__ 2 0.001) [1; 0; 0; 1; 1; 0; 0; 1]
  = Some 0.008.
Proof.
  unfold OrthogonalRegularizer.__call__, OrthogonalRegularizer.__init__, reduce_sum,
    reduce_sum1. simpl. unfold dot, reduce_sum1. simpl. f_equal. lra.
Qed.

Lemma reduce_sum1_map_nonneg {A : Type} (f : A -> R) (l : list A) :
  (forall a, 0 <= f a) -> 0 <= reduce_sum1 (map f l).
Proof.
  intros Hf. apply reduce_sum1_nonneg, Forall_map, Forall_forall. intros a _. apply Hf.
Qed.

Lemma reduce_sum_tmap_nonneg (f : R -> R) (t : matrix) :
  (forall d, 0 <= f d) -> 0 <= reduce_sum (tmap f t).
Proof.
  intros Hf. unfold reduce_sum, tmap. apply reduce_sum1_nonneg.
  apply Forall_concat, Forall_map, Forall_forall. intros row _.
  apply Forall_map, Forall_forall. intros d _. apply Hf.
Qed.

(** With a non-negative weight the penalty is never negative. *)
Lemma call_nonneg (self : OrthogonalRegularizer.t) (inputs : vector) (v : R) :
  0 <= OrthogonalRegularizer.l2 self ->
  OrthogonalRegularizer.__call__ self inputs = Some v -> 0 <= v.
Proof.
  intros Hl. unfold OrthogonalRegularizer.__call__.
  destruct (OrthogonalRegularizer.reshape_matrices _ inputs) as [A|]; [|discriminate].
  destruct (OrthogonalRegularizer.reshape_matrices _ _) as [AAT|]; [|discriminate].
  intros H. injection H as <-.
  apply reduce_sum1_map_nonneg. intros M. apply reduce_sum_tmap_nonneg.
  intros d. apply Rmult_le_pos; [exact Hl | apply pow2_ge_0].
Qed.

(** The penalty of one [n]-by-[n] matrix is zero exactly when the matrix
    times its transpose is the identity. *)
Lemma call_single_matrix_zero (n : nat) (inputs : vector) :
  (0 < n)%nat -> length inputs = (n * n)%nat ->
  exists v,
    OrthogonalRegularizer.__call__ (OrthogonalRegularizer.__init__ n 0.001) inputs = Some v /\
    0 <= v /\ (v = 0 <-> gram (chunks n n inputs) = eye n).
Proof.
  intros Hn Hl.
  pose proof (call_single_matrix (OrthogonalRegularizer.__init__ n 0.001) inputs Hn Hl) as Hc.
  cbv zeta in Hc. simpl OrthogonalRegularizer.num_features in Hc.
  simpl OrthogonalRegularizer.l2 in Hc.
  eexists. split; [exact Hc|].
  apply squares_matrix; [lra|].
  apply (same_shape n n).
  - now rewrite gram_length, chunks_length.
  - apply eye_length.
  - pose proof (gram_shape (chunks n n inputs)) as H.
    now rewrite chunks_length in H.
  - apply eye_rows.
Qed.

Lemma call_identity (n : nat) :
  (0 < n)%nat ->
  OrthogonalRegularizer.__call__ (OrthogonalRegularizer.__init__ n 0.001) (concat (eye n)) = Some 0.
Proof.
  intros Hn.
  assert (Hl : length (concat (eye n)) = (n * n)%nat).
  { rewrite (concat_rows_length n) by apply eye_rows. now rewrite eye_length. }
  destruct (call_single_matrix_zero n (concat (eye n)) Hn Hl) as [v [Hc [_ Hz]]].
  rewrite Hc. f_equal. apply Hz.
  pose proof (chunks_concat n (eye n) (eye_rows n)) as H.
  rewrite eye_length in H. rewrite H. apply gram_eye.
Qed.

(** C9, where the code departs from it.  The penalty is never negative, but
    it is not zero on every input whose matrices all satisfy [A * A^T = I]:
    [tf.tensordot(A, A, axes=(2, 2))] also multiplies the rows of different
    matrices of the input.  Two two-by-two identity matrices in one input
    get the penalty [0.008]. *)
Theorem orthogonal_penalty_cross_terms :
  (forall self inputs v,
     0 <= OrthogonalRegularizer.l2 self ->
     OrthogonalRegularizer.__call__ self inputs = Some v -> 0 <= v) /\
  OrthogonalRegularizer.reshape_matrices 2 [1; 0; 0; 1; 1; 0; 0; 1]
  = Some [eye 2; eye 2] /\
  gram (eye 2) = eye 2 /\
  OrthogonalRegularizer.__call__ (OrthogonalRegularizer.__init__ 2 0.001) [1; 0; 0; 1; 1; 0; 0; 1]
  = Some 0.008.
Proof.
  split; [apply call_nonneg|]. split; [reflexivity|].
  split; [apply gram_eye | apply call_two_identities].
Qed.

(** ** Worked instances *)

Lemma CustomMaskingLayer_call_example :
  has_shape3 1 2 3 example_points /\
  exists out,
    CustomMaskingLayer.call example_points = Some out /\
    has_shape3 1 2 3 out /\
    forall i j row p, nth_error example_points i = Some row -> nth_error row j = Some p ->
      exists row' q, nth_error out i = Some row' /\ nth_error row' j = Some q /\
        length q = length p /\
        (last p 0 = -1 -> Forall (fun x => x = 0) q) /\
        (last p 0 <> -1 -> q = p).
Proof.
  assert (H : has_shape3 1 2 3 example_points).
  { split; [reflexivity|]. repeat constructor. }
  split; [exact H|]. exact (CustomMaskingLayer_call_spec 1 2 2 example_points H).
Defined.

Lemma example_event_shape : has_shape3 1 2 num_features [example_event].
Proof.
  split; [reflexivity|]. repeat constructor.
Defined.

Lemma PointNetSegmentation_permutation_example :
  is_permutation 2 example_swap /\
  has_shape3 1 2 num_features [example_event] /\
  (forall event, In event [example_event] ->
     global_feature blank_weights (permute example_swap event)
     = global_feature blank_weights event) /\
  exists out,
    PointNetSegmentation 2 1 blank_weights [example_event] = Some out /\
    PointNetSegmentation 2 1 blank_weights (map (permute example_swap) [example_event])
    = Some (map (permute example_swap) out).
Proof.
  assert (Hs : is_permutation 2 example_swap) by apply perm_swap.
  split; [exact Hs|]. split; [exact example_event_shape|].
  exact (PointNetSegmentation_permutation 1 2 1 blank_weights example_swap
           [example_event] Hs example_event_shape).
Defined.


Lemma segmentation_output_zero_example :
  has_shape3 1 2 num_features [example_event] /\
  exists out row q,
    PointNetSegmentation 2 1 blank_weights [example_event] = Some out /\
    nth_error out 0 = Some row /\ nth_error row 1 = Some q /\
    length q = 1%nat /\
    (nth 4 [0; 0; 0; 0; 2; -1] 0 = 0 -> Forall (fun o => o = 0) q) /\
    (nth 4 [0; 0; 0; 0; 2; -1] 0 <> 0 -> Forall (fun o => o <> 0) q).
Proof.
  split; [exact example_event_shape|].
  exact (segmentation_output_zero_iff_energy_zero 1 2 1 blank_weights [example_event] 0 1
           example_event [0; 0; 0; 0; 2; -1] example_event_shape eq_refl eq_refl).
Defined.

Lemma loss_denominators_example :
  1 <= masked_loss_denominator example_labels /\
  1 <= batch_size example_labels /\
  1e-8 <= custom_accuracy_metric_denominator example_labels.
Proof.
  destruct (loss_denominators example_labels [[0; 0]] 100) as [_ [_ [Hv [_ [_ Hn]]]]].
  assert (Hvalid : ~ all_sentinel example_labels).
  { intros H. inversion H as [|t l Ht _]. unfold sentinel in Ht. lra. }
  assert (Hnn : nonnegative_labels example_labels).
  { unfold nonnegative_labels, example_labels. simpl.
    constructor; [right; lra|]. constructor; [left; reflexivity | constructor]. }
  destruct (Hv Hvalid) as [H1 H2].
  split; [exact H1|]. split; [exact H2 | exact (Hn Hnn)].
Defined.

(** * Further properties *)

(** ** custom_sigmoid and hard_sigmoid *)

Lemma custom_sigmoid_bounds (x a : R) : 0 < custom_sigmoid x a < 1.
Proof.
  unfold custom_sigmoid. pose proof (exp_pos (- a * x)) as He.
  split.
  - apply Rdiv_lt_0_compat; lra.
  - apply (Rmult_lt_reg_r (1 + exp (- a * x))); [lra|].
    unfold Rdiv. rewrite Rmult_assoc, Rinv_l by lra. lra.
Qed.

Lemma custom_sigmoid_increasing (a x y : R) :
  0 < a -> x < y -> custom_sigmoid x a < custom_sigmoid y a.
Proof.
  intros Ha Hxy. unfold custom_sigmoid.
  pose proof (exp_pos (- a * x)) as Hx. pose proof (exp_pos (- a * y)) as Hy.
  assert (He : exp (- a * y) < exp (- a * x)) by (apply exp_increasing; nra).
  unfold Rdiv. rewrite !Rmult_1_l.
  apply Rinv_lt_contravar; [|lra].
  apply Rmult_lt_0_compat; lra.
Qed.

Lemma custom_sigmoid_symmetry (x a : R) :
  custom_sigmoid (- x) a = 1 - custom_sigmoid x a.
Proof.
  unfold custom_sigmoid.
  replace (- a * - x) with (- (- a * x)) by lra.
  rewrite exp_Ropp. pose proof (exp_pos (- a * x)) as He.
  field. split; lra.
Qed.

Lemma custom_sigmoid_le (a x y : R) :
  - a * y <= - a * x -> custom_sigmoid x a <= custom_sigmoid y a.
Proof.
  intros H. unfold custom_sigmoid.
  pose proof (exp_pos (- a * x)) as Hx. pose proof (exp_pos (- a * y)) as Hy.
  assert (He : exp (- a * y) <= exp (- a * x)).
  { destruct H as [H|H]; [left; now apply exp_increasing | right; now rewrite H]. }
  unfold Rdiv. rewrite !Rmult_1_l.
  apply Rinv_le_contravar; lra.
Qed.

(** X1. [custom_sigmoid] takes its values between 0 and 1, is 1/2 at the
    origin, never decreases in [x] for a slope [a >= 0] and never increases
    in [x] for a slope [a <= 0]. *)
Theorem custom_sigmoid_range (x a : R) :
  0 <= custom_sigmoid x a <= 1 /\
  custom_sigmoid 0 a = 1 / 2 /\
  (forall y, 0 <= a -> x <= y -> custom_sigmoid x a <= custom_sigmoid y a) /\
  (forall y, a <= 0 -> x <= y -> custom_sigmoid y a <= custom_sigmoid x a).
Proof.
  split; [pose proof (custom_sigmoid_bounds x a); lra|].
  split; [unfold custom_sigmoid; rewrite Rmult_0_r, exp_0; lra|].
  split; intros y Ha Hxy; apply custom_sigmoid_le; nra.
Qed.

Lemma hard_sigmoid_positive (x : R) : 0 < x -> hard_sigmoid x = 1.
Proof.
  intros H. unfold hard_sigmoid. now rewrite (proj2 (Rltb_true 0 x) H).
Qed.

Lemma hard_sigmoid_nonpositive (x : R) : x <= 0 -> hard_sigmoid x = 0.
Proof.
  intros H. unfold hard_sigmoid. now rewrite (proj2 (Rltb_false 0 x) H).
Qed.

Lemma custom_sigmoid_above_half (x a : R) :
  0 < a -> (1 / 2 < custom_sigmoid x a <-> 0 < x).
Proof.
  intros Ha.
  assert (H0 : custom_sigmoid 0 a = 1 / 2)
    by (unfold custom_sigmoid; rewrite Rmult_0_r, exp_0; lra).
  split; intros H.
  - destruct (Rlt_dec 0 x) as [|Hn]; [assumption|]. exfalso.
    destruct (Req_dec x 0) as [->|Hx]; [lra|].
    pose proof (custom_sigmoid_increasing a x 0 Ha ltac:(lra)). lra.
  - pose proof (custom_sigmoid_increasing a 0 x Ha H). lra.
Qed.

(** X2. [hard_sigmoid] is the step function, 1 on the positive numbers and 0
    elsewhere, so it never decreases and applying it twice changes nothing;
    it is [custom_sigmoid] cut at one half: for a positive slope it is 1
    exactly where [custom_sigmoid] exceeds 1/2. *)
Theorem hard_sigmoid_step (x y a : R) :
  (0 < x -> hard_sigmoid x = 1) /\
  (x <= 0 -> hard_sigmoid x = 0) /\
  (x <= y -> hard_sigmoid x <= hard_sigmoid y) /\
  hard_sigmoid (hard_sigmoid x) = hard_sigmoid x /\
  (0 < a -> (hard_sigmoid x = 1 <-> 1 / 2 < custom_sigmoid x a)).
Proof.
  split; [apply hard_sigmoid_positive|]. split; [apply hard_sigmoid_nonpositive|].
  split; [|split].
  - intros Hxy. destruct (Rlt_dec 0 x) as [Hx|Hx].
    + rewrite (hard_sigmoid_positive x Hx), (hard_sigmoid_positive y) by lra. lra.
    + rewrite (hard_sigmoid_nonpositive x) by lra.
      destruct (Rlt_dec 0 y) as [Hy|Hy].
      * rewrite (hard_sigmoid_positive y Hy). lra.
      * rewrite (hard_sigmoid_nonpositive y) by lra. lra.
  - destruct (Rlt_dec 0 x) as [Hx|Hx].
    + rewrite (hard_sigmoid_positive x Hx). apply hard_sigmoid_positive. lra.
    + rewrite (hard_sigmoid_nonpositive x) by lra. apply hard_sigmoid_nonpositive. lra.
  - intros Ha. rewrite (custom_sigmoid_above_half x a Ha). split.
    + intros H. destruct (Rlt_dec 0 x) as [Hx|Hx]; [assumption|].
      rewrite (hard_sigmoid_nonpositive x) in H by lra. lra.
    + apply hard_sigmoid_positive.
Qed.

(** ** CustomMaskingLayer, applied twice *)

Lemma last_zeros (p : vector) : last (map (fun _ : R => 0) p) 0 = 0.
Proof.
  induction p as [|x p IH]; simpl; [reflexivity|].
  destruct p; simpl in *; [reflexivity | exact IH].
Qed.

Lemma masked_point_type (p : vector) : last (masked_point p) 0 <> -1.
Proof.
  unfold masked_point. destruct (Reqb (last p 0) (-1)) eqn:E.
  - rewrite last_zeros. lra.
  - now apply Reqb_false.
Qed.

Lemma masked_point_idempotent (p : vector) :
  masked_point (masked_point p) = masked_point p.
Proof.
  unfold masked_point at 1.
  now rewrite (proj2 (Reqb_false _ _) (masked_point_type p)).
Qed.

(** X3. The masking layer erases the mark it reads: in its output no point
    has the type [-1] any more (a masked point is all zeros, type included),
    so applying the layer to its own output changes nothing. *)
Theorem CustomMaskingLayer_call_idempotent (b n f : nat) (inputs : tensor3) :
  has_shape3 b n (S f) inputs ->
  exists out,
    CustomMaskingLayer.call inputs = Some out /\
    (forall row p, In row out -> In p row -> last p 0 <> -1) /\
    CustomMaskingLayer.call out = Some out.
Proof.
  intros Hs. exists (tmap masked_point inputs).
  split; [apply call_masked_points; eapply has_shape3_nonempty; eauto|].
  split.
  - intros row p Hrow Hp. unfold tmap in Hrow.
    apply in_map_iff in Hrow. destruct Hrow as [row0 [<- _]].
    apply in_map_iff in Hp. destruct Hp as [p0 [<- _]].
    apply masked_point_type.
  - rewrite call_masked_points
      by (eapply has_shape3_nonempty; apply has_shape3_masked; eauto).
    f_equal. unfold tmap. rewrite map_map. apply map_ext. intros row.
    rewrite map_map. apply map_ext. intros p. apply masked_point_idempotent.
Qed.

Lemma CustomMaskingLayer_call_idempotent_example :
  has_shape3 1 2 3 example_points /\
  exists out,
    CustomMaskingLayer.call example_points = Some out /\
    (forall row p, In row out -> In p row -> last p 0 <> -1) /\
    CustomMaskingLayer.call out = Some out.
Proof.
  assert (H : has_shape3 1 2 3 example_points).
  { split; [reflexivity|]. repeat constructor. }
  split; [exact H|]. exact (CustomMaskingLayer_call_idempotent 1 2 2 example_points H).
Defined.

(** ** The blocks of the model *)

Lemma BatchNormalization_length (w : batchnorm_weights) (x : vector) :
  length (BatchNormalization w x) = length x.
Proof.
  unfold BatchNormalization. rewrite length_map, length_combine, length_seq.
  apply Nat.min_id.
Qed.

Lemma Dense_length (units : nat) (w : layer_weights) (x : vector) :
  length (Dense units w x) = units.
Proof.
  unfold Dense. now rewrite length_map, length_seq.
Qed.

(** X4. [conv_mlp] is a shared per-point network: it keeps the number of
    points, gives every point exactly [filters] channels, and the output of a
    point is computed from that point alone, so it distributes over the
    concatenation of point lists and a point's output is what the block gives
    on that point by itself. *)
Theorem conv_mlp_pointwise (w : block_weights) (x y : matrix) (filters : nat)
  (dropout_rate : option R) :
  length (conv_mlp w x filters dropout_rate) = length x /\
  has_width filters (conv_mlp w x filters dropout_rate) /\
  conv_mlp w (x ++ y) filters dropout_rate
  = conv_mlp w x filters dropout_rate ++ conv_mlp w y filters dropout_rate /\
  (forall i p, nth_error x i = Some p ->
     nth_error (conv_mlp w x filters dropout_rate) i
     = nth_error (conv_mlp w [p] filters dropout_rate) 0).
Proof.
  split; [apply conv_mlp_length|]. rewrite !conv_mlp_map. split.
  - apply Forall_map, Forall_forall. intros p _.
    now rewrite BatchNormalization_length, length_map, Dense_length.
  - split; [apply map_app|].
    intros i p Hp. rewrite conv_mlp_map. simpl.
    exact (map_nth_error _ i x Hp).
Qed.

Lemma relu_nonneg (x : R) : 0 <= relu x.
Proof.
  unfold relu. apply Rmax_r.
Qed.

Lemma dense_block_relu (w : block_weights) (x : vector) (units : nat)
  (dropout_rate : option R) (regularizer : option OrthogonalRegularizer.t) :
  dense_block w x units dropout_rate regularizer
  = map relu (BatchNormalization (norm w) (Dense units (linear w) x)).
Proof.
  unfold dense_block, Dropout. now destruct dropout_rate.
Qed.

Lemma dense_block_length (w : block_weights) (x : vector) (units : nat)
  (dropout_rate : option R) (regularizer : option OrthogonalRegularizer.t) :
  length (dense_block w x units dropout_rate regularizer) = units.
Proof.
  now rewrite dense_block_relu, length_map, BatchNormalization_length, Dense_length.
Qed.

Lemma dense_block_nonneg (w : block_weights) (x : vector) (units : nat)
  (dropout_rate : option R) (regularizer : option OrthogonalRegularizer.t) :
  Forall (fun v => 0 <= v) (dense_block w x units dropout_rate regularizer).
Proof.
  rewrite dense_block_relu. apply Forall_map, Forall_forall. intros v _. apply relu_nonneg.
Qed.

(** X5. [dense_block] returns exactly [units] values, none of them negative
    (the ReLU comes last), and neither the regulariser nor, at inference, the
    dropout rate changes them. *)
Theorem dense_block_output (w : block_weights) (x : vector) (units : nat)
  (dropout_rate : option R) (regularizer : option OrthogonalRegularizer.t) :
  length (dense_block w x units dropout_rate regularizer) = units /\
  Forall (fun v => 0 <= v) (dense_block w x units dropout_rate regularizer) /\
  dense_block w x units dropout_rate regularizer = dense_block w x units None None.
Proof.
  split; [apply dense_block_length|]. split; [apply dense_block_nonneg|].
  now rewrite !dense_block_relu.
Qed.

Lemma chunks_Forall {A : Type} (P : A -> Prop) (count width : nat) (l : list A) :
  Forall P l -> Forall (Forall P) (chunks count width l).
Proof.
  revert l; induction count as [|c IH]; intros l Hl; simpl; constructor;
    rewrite <- (firstn_skipn width l) in Hl; apply Forall_app in Hl.
  - tauto.
  - apply IH. tauto.
Qed.

(** X6. Whatever the weights and the points, [TNet] returns a [size] by
    [size] matrix without a negative entry (its last layer ends in a ReLU),
    and [add_regularization] does not change the matrix. *)
Theorem TNet_output (w : TNet_weights) (x : matrix) (size : nat)
  (add_regularization : bool) :
  length (TNet w x size add_regularization) = size /\
  has_width size (TNet w x size add_regularization) /\
  Forall (Forall (fun v => 0 <= v)) (TNet w x size add_regularization) /\
  TNet w x size add_regularization = TNet w x size false.
Proof.
  unfold TNet. cbv zeta.
  split; [apply chunks_length|].
  split; [apply chunks_rows, dense_block_length|].
  split; [apply chunks_Forall, dense_block_nonneg|].
  now rewrite !(dense_block_relu (tnet_dense3 w)).
Qed.

Lemma nth_vmax (a b : vector) (j : nat) :
  (j < length a)%nat -> (j < length b)%nat ->
  nth j (map2 Rmax a b) 0 = Rmax (nth j a 0) (nth j b 0).
Proof.
  revert b j; induction a as [|x a IH]; intros [|y b] [|j] Ha Hb; simpl in *;
    try lia; [reflexivity|].
  apply IH; lia.
Qed.

Lemma fold_vmax_maximum (f : nat) (rest : matrix) (acc : vector) :
  length acc = f -> has_width f rest ->
  length (fold_left (map2 Rmax) rest acc) = f /\
  forall j, (j < f)%nat ->
    (forall p, In p (acc :: rest) -> nth j p 0 <= nth j (fold_left (map2 Rmax) rest acc) 0) /\
    (exists p, In p (acc :: rest) /\ nth j (fold_left (map2 Rmax) rest acc) 0 = nth j p 0).
Proof.
  intros Hacc Hrest. revert acc Hacc.
  induction Hrest as [|q rest Hq _ IH]; intros acc Hacc.
  - simpl. split; [exact Hacc|]. intros j Hj. split.
    + intros p [<-|[]]. lra.
    + exists acc. split; [now left | reflexivity].
  - simpl fold_left.
    assert (Hm : length (map2 Rmax acc q) = f) by (rewrite map2_length; lia).
    destruct (IH (map2 Rmax acc q) Hm) as [Hl Hj]. split; [exact Hl|].
    intros j Hjf. destruct (Hj j Hjf) as [Hub [p [Hin Heq]]].
    assert (Hnth : nth j (map2 Rmax acc q) 0 = Rmax (nth j acc 0) (nth j q 0))
      by (apply nth_vmax; lia).
    pose proof (Hub (map2 Rmax acc q) (or_introl eq_refl)) as Hhead.
    rewrite Hnth in Hhead.
    pose proof (Rmax_l (nth j acc 0) (nth j q 0)).
    pose proof (Rmax_r (nth j acc 0) (nth j q 0)).
    split.
    + intros p' [<-|[<-|Hp']]; try lra. apply Hub. now right.
    + destruct Hin as [<-|Hin].
      * rewrite Heq, Hnth. unfold Rmax. destruct (Rle_dec (nth j acc 0) (nth j q 0)).
        -- exists q. split; [right; now left | reflexivity].
        -- exists acc. split; [now left | reflexivity].
      * exists p. split; [right; now right | exact Heq].
Qed.

(** X7. On an event with at least one point, all points having [f] channels,
    [GlobalMaxPooling1D] returns [f] values, and value [j] is the maximum of
    channel [j] over the points: no point exceeds it and some point attains
    it. *)
Theorem GlobalMaxPooling1D_maximum (f : nat) (x : matrix) :
  x <> [] -> has_width f x ->
  length (GlobalMaxPooling1D x) = f /\
  forall j, (j < f)%nat ->
    (forall p, In p x -> nth j p 0 <= nth j (GlobalMaxPooling1D x) 0) /\
    (exists p, In p x /\ nth j (GlobalMaxPooling1D x) 0 = nth j p 0).
Proof.
  intros Hne Hw. destruct x as [|p rest]; [contradiction|].
  inversion Hw as [|? ? Hp Hrest]; subst.
  exact (fold_vmax_maximum (length p) rest p eq_refl Hrest).
Qed.

Lemma GlobalMaxPooling1D_maximum_example :
  [[1; 5]; [3; 2]] <> [] /\ has_width 2 [[1; 5]; [3; 2]] /\
  length (GlobalMaxPooling1D [[1; 5]; [3; 2]]) = 2%nat /\
  forall j, (j < 2)%nat ->
    (forall p, In p [[1; 5]; [3; 2]] ->
       nth j p 0 <= nth j (GlobalMaxPooling1D [[1; 5]; [3; 2]]) 0) /\
    (exists p, In p [[1; 5]; [3; 2]] /\
       nth j (GlobalMaxPooling1D [[1; 5]; [3; 2]]) 0 = nth j p 0).
Proof.
  assert (Hne : [[1; 5]; [3; 2]] <> []) by discriminate.
  assert (Hw : has_width 2 [[1; 5]; [3; 2]]) by (repeat constructor).
  split; [exact Hne|]. split; [exact Hw|].
  exact (GlobalMaxPooling1D_maximum 2 [[1; 5]; [3; 2]] Hne Hw).
Defined.

Lemma seq_nth_map {A : Type} (d : A) (l : list A) :
  map (fun k => nth k l d) (seq 0 (length l)) = l.
Proof.
  induction l as [|a l IH]; [reflexivity|].
  simpl. f_equal. rewrite <- seq_shift, map_map. exact IH.
Qed.

Lemma eye_column (n j : nat) :
  (j < n)%nat ->
  column j (eye n) = map (fun i => if Nat.eqb i j then 1 else 0) (seq 0 n).
Proof.
  intros Hj. unfold column, eye. rewrite map_map. apply map_ext. intros i.
  rewrite (nth_indep _ 0 ((fun k => if Nat.eqb i k then 1 else 0) O))
    by now rewrite length_map, length_seq.
  rewrite (map_nth (fun k => if Nat.eqb i k then 1 else 0)), seq_nth by exact Hj.
  reflexivity.
Qed.

Lemma dot_eye_column (n j : nat) (p : vector) :
  length p = n -> (j < n)%nat -> dot p (column j (eye n)) = nth j p 0.
Proof.
  intros Hp Hj. rewrite (eye_column n j Hj). unfold dot.
  rewrite <- (seq_nth_map 0 p) at 1. rewrite Hp, map2_map_r.
  rewrite (map_ext _ (fun k => if Nat.eqb j k then (fun k' => nth k' p 0) k else 0)).
  - rewrite indicator_sum.
    destruct (Nat.leb_spec 0 j); [|lia]. destruct (Nat.ltb_spec j (0 + n)); [|lia].
    reflexivity.
  - intros k. rewrite (Nat.eqb_sym k j). destruct (Nat.eqb j k); lra.
Qed.

Lemma eye_head_length (n : nat) : length (hd [] (eye n)) = n.
Proof.
  destruct n as [|n]; [reflexivity|].
  pose proof (eye_rows (S n)) as H. unfold eye in *. simpl in *.
  inversion H; subst. assumption.
Qed.

(** X8. The transform step with the identity matrix changes nothing: on
    points with [n] features, [Dot(axes=(2, 1))] of the points and [tf.eye(n)]
    returns the points. *)
Theorem Dot_2_1_identity (n : nat) (x : matrix) :
  has_width n x -> Dot_2_1 x (eye n) = x.
Proof.
  intros Hw. unfold Dot_2_1. rewrite eye_head_length.
  induction Hw as [|p x Hp _ IH]; [reflexivity|].
  cbn [map]. rewrite IH. f_equal.
  transitivity (map (fun j => nth j p 0) (seq 0 n)).
  - apply map_ext_in. intros j Hj. apply in_seq in Hj.
    apply dot_eye_column; [exact Hp | lia].
  - rewrite <- Hp. apply seq_nth_map.
Qed.

Lemma Dot_2_1_identity_example :
  has_width 2 [[1; 5]; [3; 2]] /\ Dot_2_1 [[1; 5]; [3; 2]] (eye 2) = [[1; 5]; [3; 2]].
Proof.
  assert (Hw : has_width 2 [[1; 5]; [3; 2]]) by (repeat constructor).
  split; [exact Hw | exact (Dot_2_1_identity 2 [[1; 5]; [3; 2]] Hw)].
Defined.

Lemma input_shape_ok_true (n : nat) (event : matrix) :
  input_shape_ok n event = true <-> length event = n /\ has_width num_features event.
Proof.
  unfold input_shape_ok, has_width. rewrite andb_true_iff, Nat.eqb_eq, forallb_forall,
    Forall_forall.
  split; intros [H1 H2]; (split; [exact H1|]); intros p Hp.
  - apply Nat.eqb_eq. now apply H2.
  - apply Nat.eqb_eq. now apply H2.
Qed.

Lemma segmentation_event_shape (num_classes : nat) (w : PointNet_weights) (x : matrix) :
  length (segmentation_event (length x) num_classes w x) = length x /\
  has_width num_classes (segmentation_event (length x) num_classes w x).
Proof.
  assert (Hl : length (segmentation_event (length x) num_classes w x) = length x).
  { unfold segmentation_event, tmap. cbv zeta.
    rewrite map2_length, !length_map, segmentation_scores_length. apply Nat.min_id. }
  split; [exact Hl|].
  apply Forall_forall. intros q Hq.
  destruct (In_nth_error _ _ Hq) as [i Hi].
  assert (Hlt : (i < length x)%nat).
  { rewrite <- Hl. apply nth_error_Some. congruence. }
  destruct (nth_error x i) as [p|] eqn:Ep; [|apply nth_error_None in Ep; lia].
  destruct (segmentation_event_nth num_classes w x i p Ep) as [scores [_ [Hs Ho]]].
  rewrite Hi in Ho. injection Ho as ->. now rewrite length_map.
Qed.

(** X9. The model accepts a batch exactly when every event has [num_points]
    points of six features (anything else is the shape error), and then its
    output has one row of [num_classes] values per point: shape
    (batch, num_points, num_classes). *)
Theorem PointNetSegmentation_shapes (num_points num_classes : nat)
  (w : PointNet_weights) (batch : tensor3) :
  (PointNetSegmentation num_points num_classes w batch <> None <->
   has_shape3 (length batch) num_points num_features batch) /\
  (forall out, PointNetSegmentation num_points num_classes w batch = Some out ->
     has_shape3 (length batch) num_points num_classes out).
Proof.
  assert (Hok : forallb (input_shape_ok num_points) batch = true <->
                has_shape3 (length batch) num_points num_features batch).
  { rewrite forallb_forall. unfold has_shape3. rewrite Forall_forall. split.
    - intros H. split; [reflexivity|]. intros event Hin.
      now apply input_shape_ok_true, H.
    - intros [_ H] event Hin. now apply input_shape_ok_true, H. }
  split.
  - unfold PointNetSegmentation.
    destruct (forallb (input_shape_ok num_points) batch) eqn:E.
    + split; [intros _; now apply Hok | discriminate].
    + split; [congruence|]. intros H. apply Hok in H. discriminate.
  - intros out Hout. unfold PointNetSegmentation in Hout.
    destruct (forallb (input_shape_ok num_points) batch) eqn:E; [|discriminate].
    injection Hout as <-. destruct (proj1 Hok eq_refl) as [_ Hs].
    split; [apply length_map|].
    apply Forall_map. eapply Forall_impl; [|exact Hs].
    intros event [Hn _]. simpl. subst num_points.
    apply segmentation_event_shape.
Qed.

(** ** More on the losses *)

Lemma Rdiv_nonneg (a b : R) : 0 <= a -> 0 < b -> 0 <= a / b.
Proof.
  intros Ha Hb. unfold Rdiv. apply Rmult_le_pos; [exact Ha|].
  left. now apply Rinv_0_lt_compat.
Qed.

Lemma sum_over_valid_nonneg (F : R -> R -> R) (y_true y_pred : matrix) :
  (forall t p, 0 <= F t p) -> 0 <= sum_over_valid F y_true y_pred.
Proof.
  intros HF. unfold sum_over_valid. apply reduce_sum1_map_nonneg. intros tp. apply HF.
Qed.

Lemma dynamic_range_pos (v : vector) : 0 < dynamic_range v.
Proof.
  pose proof (dynamic_range_positive v). lra.
Qed.

Lemma mean_squared_error_nonneg (t p : R) : 0 <= mean_squared_error t p.
Proof.
  unfold mean_squared_error. apply pow2_ge_0.
Qed.

Lemma huber_nonneg (t p : R) : 0 <= huber 1.0 t p.
Proof.
  unfold huber, tf_where. cbv zeta.
  destruct (Rleb (Rabs (p - t)) 1.0) eqn:E.
  - pose proof (pow2_ge_0 (p - t)). lra.
  - apply Rleb_false in E. simpl. lra.
Qed.

(** X10. When at least one label is not the sentinel, the squared-error, the
    absolute-error and the Huber masked losses are never negative. *)
Theorem masked_losses_nonnegative (y_true y_pred : matrix) :
  ~ all_sentinel y_true ->
  0 <= masked_mse_loss y_true y_pred /\
  0 <= masked_mae_loss y_true y_pred /\
  0 <= masked_huber_loss y_true y_pred.
Proof.
  intros Hv.
  pose proof (valid_count_ge_1 y_true Hv) as Hc.
  pose proof (batch_size_ge_1 y_true Hv) as Hb.
  pose proof (dynamic_range_pos (valid_labels y_true)) as Hd.
  rewrite masked_mse_loss_valid, masked_mae_loss_valid, masked_huber_loss_valid.
  split; [|split].
  - apply Rdiv_nonneg; [|lra]. apply sum_over_valid_nonneg. intros t p.
    apply Rdiv_nonneg; [apply mean_squared_error_nonneg|]. apply pow_lt. exact Hd.
  - apply Rmult_le_pos; [|lra]. apply Rdiv_nonneg; [|lra].
    apply sum_over_valid_nonneg. intros t p.
    apply Rdiv_nonneg; [apply Rabs_pos | exact Hd].
  - apply Rdiv_nonneg; [|lra]. apply Rdiv_nonneg; [|lra].
    apply sum_over_valid_nonneg. apply huber_nonneg.
Qed.

Lemma example_labels_valid : ~ all_sentinel example_labels.
Proof.
  intros H. inversion H as [|t l Ht _]. unfold sentinel in Ht. lra.
Defined.

Lemma masked_losses_nonnegative_example :
  ~ all_sentinel example_labels /\
  0 <= masked_mse_loss example_labels [[0; 0]] /\
  0 <= masked_mae_loss example_labels [[0; 0]] /\
  0 <= masked_huber_loss example_labels [[0; 0]].
Proof.
  split; [exact example_labels_valid|].
  exact (masked_losses_nonnegative example_labels [[0; 0]] example_labels_valid).
Defined.

Lemma valid_pairs_row_agree (rt rp rp' : vector) :
  map2 (fun t p => if is_valid t then p else 0) rt rp
  = map2 (fun t p => if is_valid t then p else 0) rt rp' ->
  filter (fun tp => is_valid (fst tp)) (combine rt rp)
  = filter (fun tp => is_valid (fst tp)) (combine rt rp').
Proof.
  revert rp rp'; induction rt as [|t rt IH]; intros [|p rp] [|p' rp'] H; simpl in *;
    try reflexivity; try discriminate.
  injection H as Hp Hrest. rewrite (IH rp rp' Hrest).
  destruct (is_valid t); [now subst | reflexivity].
Qed.

(** The valid pairs are determined by the predictions at the valid points. *)
Lemma valid_pairs_agree (y_true y_pred y_pred' : matrix) :
  predictions_at_valid y_true y_pred = predictions_at_valid y_true y_pred' ->
  valid_pairs y_true y_pred = valid_pairs y_true y_pred'.
Proof.
  unfold predictions_at_valid, valid_pairs, tmap2.
  revert y_pred y_pred'; induction y_true as [|rt y_true IH];
    intros [|rp y_pred] [|rp' y_pred'] H; simpl in *; try reflexivity; try discriminate.
  injection H as Hrow Hrest.
  now rewrite (valid_pairs_row_agree rt rp rp' Hrow), (IH y_pred y_pred' Hrest).
Qed.

Lemma sum_over_valid_agree (F : R -> R -> R) (y_true y_pred y_pred' : matrix) :
  predictions_at_valid y_true y_pred = predictions_at_valid y_true y_pred' ->
  sum_over_valid F y_true y_pred = sum_over_valid F y_true y_pred'.
Proof.
  intros H. unfold sum_over_valid. now rewrite (valid_pairs_agree _ _ _ H).
Qed.

(** X11. Predictions at sentinel-labelled points never matter: two prediction
    tensors that agree wherever the label is not the sentinel get the same
    value from each of the five masked losses and from the accuracy metric. *)
Theorem losses_ignore_masked_predictions (y_true y_pred y_pred' : matrix) (bce_weight : R) :
  predictions_at_valid y_true y_pred = predictions_at_valid y_true y_pred' ->
  masked_mse_bce_loss y_true y_pred bce_weight = masked_mse_bce_loss y_true y_pred' bce_weight /\
  masked_mae_loss y_true y_pred = masked_mae_loss y_true y_pred' /\
  masked_mse_loss y_true y_pred = masked_mse_loss y_true y_pred' /\
  masked_huber_loss y_true y_pred = masked_huber_loss y_true y_pred' /\
  masked_bce_loss y_true y_pred = masked_bce_loss y_true y_pred' /\
  custom_accuracy_metric y_true y_pred = custom_accuracy_metric y_true y_pred'.
Proof.
  intros H.
  rewrite !masked_mse_bce_loss_valid, !masked_mae_loss_valid, !masked_mse_loss_valid,
    !masked_huber_loss_valid, !masked_bce_loss_valid, !custom_accuracy_metric_valid.
  rewrite !(sum_over_valid_agree _ y_true y_pred y_pred' H).
  rewrite (valid_pairs_agree _ _ _ H). repeat split.
Qed.

Lemma losses_ignore_masked_predictions_example :
  predictions_at_valid example_labels [[0; 5]] = predictions_at_valid example_labels [[0; 7]] /\
  masked_mse_bce_loss example_labels [[0; 5]] 100 = masked_mse_bce_loss example_labels [[0; 7]] 100 /\
  masked_mae_loss example_labels [[0; 5]] = masked_mae_loss example_labels [[0; 7]] /\
  masked_mse_loss example_labels [[0; 5]] = masked_mse_loss example_labels [[0; 7]] /\
  masked_huber_loss example_labels [[0; 5]] = masked_huber_loss example_labels [[0; 7]] /\
  masked_bce_loss example_labels [[0; 5]] = masked_bce_loss example_labels [[0; 7]] /\
  custom_accuracy_metric example_labels [[0; 5]] = custom_accuracy_metric example_labels [[0; 7]].
Proof.
  assert (H : predictions_at_valid example_labels [[0; 5]]
              = predictions_at_valid example_labels [[0; 7]]).
  { unfold predictions_at_valid, example_labels, tmap2. simpl.
    now rewrite is_valid_sentinel. }
  split; [exact H|].
  exact (losses_ignore_masked_predictions example_labels [[0; 5]] [[0; 7]] 100 H).
Defined.

Lemma valid_pairs_diagonal (y_true : matrix) (tp : R * R) :
  In tp (valid_pairs y_true y_true) -> snd tp = fst tp.
Proof.
  unfold valid_pairs. induction y_true as [|rt y_true IH]; simpl; [tauto|].
  rewrite in_app_iff. intros [H|H]; [|now apply IH].
  apply filter_In in H. destruct H as [H _]. clear IH.
  induction rt as [|t rt IH]; simpl in H; [tauto|].
  destruct H as [<-|H]; [reflexivity | now apply IH].
Qed.

Lemma sum_over_valid_zero (F : R -> R -> R) (y_true y_pred : matrix) :
  (forall tp, In tp (valid_pairs y_true y_pred) -> F (fst tp) (snd tp) = 0) ->
  sum_over_valid F y_true y_pred = 0.
Proof.
  unfold sum_over_valid. induction (valid_pairs y_true y_pred) as [|tp l IH]; intros H.
  - reflexivity.
  - unfold reduce_sum1 in *. simpl. rewrite (H tp (or_introl eq_refl)), IH; [lra|].
    intros tp' Hin. apply H. now right.
Qed.

(** X12. A perfect fit costs nothing: when some label is not the sentinel and
    the prediction equals the label at every non-sentinel point, the
    squared-error, absolute-error and Huber masked losses are zero,
    whatever is predicted at the sentinel points. *)
Theorem masked_losses_perfect_fit (y_true y_pred : matrix) :
  ~ all_sentinel y_true ->
  predictions_at_valid y_true y_pred = predictions_at_valid y_true y_true ->
  masked_mse_loss y_true y_pred = 0 /\
  masked_mae_loss y_true y_pred = 0 /\
  masked_huber_loss y_true y_pred = 0.
Proof.
  intros _ H.
  rewrite masked_mse_loss_valid, masked_mae_loss_valid, masked_huber_loss_valid.
  rewrite !(sum_over_valid_agree _ y_true y_pred y_true H).
  rewrite !sum_over_valid_zero; [unfold Rdiv; repeat split; lra| | |];
    intros tp Hin; rewrite (valid_pairs_diagonal _ _ Hin).
  - unfold huber, tf_where. cbv zeta. replace (fst tp - fst tp) with 0 by lra.
    rewrite Rabs_R0.
    replace (Rleb 0 1.0) with true by (symmetry; apply Rleb_true; lra). lra.
  - unfold mean_absolute_error. replace (fst tp - fst tp) with 0 by lra.
    rewrite Rabs_R0. unfold Rdiv. lra.
  - unfold mean_squared_error. replace (fst tp - fst tp) with 0 by lra.
    unfold Rdiv. simpl. lra.
Qed.

Lemma masked_losses_perfect_fit_example :
  ~ all_sentinel example_labels /\
  predictions_at_valid example_labels [[1; 7]]
  = predictions_at_valid example_labels example_labels /\
  masked_mse_loss example_labels [[1; 7]] = 0 /\
  masked_mae_loss example_labels [[1; 7]] = 0 /\
  masked_huber_loss example_labels [[1; 7]] = 0.
Proof.
  assert (H : predictions_at_valid example_labels [[1; 7]]
              = predictions_at_valid example_labels example_labels).
  { unfold predictions_at_valid, example_labels, tmap2. simpl.
    now rewrite is_valid_sentinel. }
  split; [exact example_labels_valid|]. split; [exact H|].
  exact (masked_losses_perfect_fit example_labels [[1; 7]] example_labels_valid H).
Defined.

(** X13. The BCE penalty of [masked_mse_bce_loss] only counts points whose
    label is exactly zero and is scaled by [bce_weight]: with a zero weight,
    or when no label is exactly zero, the loss is [masked_mse_loss]. *)
Theorem masked_mse_bce_loss_without_penalty (y_true y_pred : matrix) (bce_weight : R) :
  bce_weight = 0 \/ Forall (fun t => t <> 0) (concat y_true) ->
  masked_mse_bce_loss y_true y_pred bce_weight = masked_mse_loss y_true y_pred.
Proof.
  intros H. rewrite masked_mse_bce_loss_valid, masked_mse_loss_valid.
  rewrite (sum_over_valid_zero (zero_label_penalty bce_weight)).
  - unfold Rdiv. lra.
  - intros tp Hin. unfold zero_label_penalty. destruct H as [->|H]; [lra|].
    assert (Ht : fst tp <> 0).
    { rewrite Forall_forall in H. apply H. clear H.
      unfold valid_pairs in Hin. revert y_pred Hin.
      induction y_true as [|rt y_true IH]; intros [|rp y_pred] Hin; simpl in *;
        try tauto.
      rewrite in_app_iff in *. destruct Hin as [Hin|Hin]; [left | right; eauto].
      apply filter_In in Hin. destruct Hin as [Hin _].
      destruct tp as [t p]. eapply in_combine_l; eauto. }
    replace 0.0 with 0 by lra.
    rewrite (proj2 (Reqb_false _ _) Ht). simpl. lra.
Qed.

Lemma masked_mse_bce_loss_without_penalty_example :
  (100 = 0 \/ Forall (fun t => t <> 0) (concat example_labels)) /\
  masked_mse_bce_loss example_labels [[0; 0]] 100 = masked_mse_loss example_labels [[0; 0]].
Proof.
  assert (H : 100 = 0 \/ Forall (fun t => t <> 0) (concat example_labels)).
  { right. unfold example_labels, sentinel. simpl.
    constructor; [lra|]. constructor; [lra | constructor]. }
  split; [exact H|].
  exact (masked_mse_bce_loss_without_penalty example_labels [[0; 0]] 100 H).
Defined.

Lemma valid_pairs_all_sentinel (y_true y_pred : matrix) :
  all_sentinel y_true -> valid_pairs y_true y_pred = [].
Proof.
  intros H. destruct (valid_pairs y_true y_pred) as [|tp l] eqn:E; [reflexivity|].
  exfalso.
  assert (Hin : In tp (valid_pairs y_true y_pred)) by (rewrite E; now left).
  pose proof (valid_pairs_valid _ _ _ Hin) as Hv. apply is_valid_true in Hv.
  apply Hv. clear Hv E. unfold all_sentinel in H. rewrite Forall_forall in H. apply H.
  unfold valid_pairs in Hin. revert y_pred Hin.
  induction y_true as [|rt y_true IH]; intros [|rp y_pred] Hin; simpl in *; try tauto.
  rewrite in_app_iff in *. destruct Hin as [Hin|Hin].
  - left. apply filter_In in Hin. destruct Hin as [Hin _].
    destruct tp as [t p]. eapply in_combine_l; eauto.
  - right. eapply IH; eauto.
    intros x Hx. apply H. rewrite in_app_iff. now right.
Qed.

Lemma valid_pairs_labels (y_true : matrix) :
  map fst (valid_pairs y_true y_true) = valid_labels y_true.
Proof.
  unfold valid_pairs, valid_labels. rewrite map2_diag.
  rewrite <- concat_filter_map, concat_map, map_map. f_equal.
  apply map_ext. intros rt. induction rt as [|t rt IH]; simpl; [reflexivity|].
  destruct (is_valid t); simpl; now rewrite IH.
Qed.

(** X14. Edge values of the accuracy metric.  With every label the sentinel
    it is 0 (an empty selection over a denominator of [1e-8]).  With the
    prediction equal to the label at every non-sentinel point and a positive
    label sum [S] the cap is not reached: the metric is the ratio
    [100 * S / (S + 1e-8)] itself, a positive number, whatever is predicted
    at the sentinel points. *)
Theorem custom_accuracy_metric_edges (y_true y_pred : matrix) :
  (all_sentinel y_true -> custom_accuracy_metric y_true y_pred = 0) /\
  (predictions_at_valid y_true y_pred = predictions_at_valid y_true y_true ->
   0 < reduce_sum1 (valid_labels y_true) ->
   custom_accuracy_metric y_true y_pred
   = 100 * reduce_sum1 (valid_labels y_true) / (reduce_sum1 (valid_labels y_true) + 1e-8) /\
   0 < custom_accuracy_metric y_true y_pred).
Proof.
  rewrite custom_accuracy_metric_valid. split.
  - intros H. rewrite (valid_pairs_all_sentinel _ _ H), (valid_labels_all_sentinel _ H).
    simpl. unfold Rdiv. rewrite Rmult_0_r, Rmult_0_l. apply Rmin_left. lra.
  - intros H HS.
    assert (E : map snd (valid_pairs y_true y_pred) = valid_labels y_true).
    { rewrite (valid_pairs_agree _ _ _ H), <- valid_pairs_labels.
      apply map_ext_in. intros tp Hin. exact (valid_pairs_diagonal y_true tp Hin). }
    rewrite E. set (total := reduce_sum1 (valid_labels y_true)) in *.
    assert (Hq : 0 < 100 * total / (total + 1e-8) < 100).
    { split.
      - apply Rdiv_lt_0_compat; lra.
      - apply (Rmult_lt_reg_r (total + 1e-8)); [lra|].
        unfold Rdiv. rewrite Rmult_assoc, Rinv_l by lra. lra. }
    replace 100.0 with 100 by lra. replace 1000.0 with 1000 by lra.
    rewrite Rmin_left by lra. split; [reflexivity | apply Hq].
Qed.

Lemma fold_Rmax_bounds (rest : vector) (v : R) :
  v <= fold_left Rmax rest v /\ Forall (fun a => a <= fold_left Rmax rest v) rest.
Proof.
  revert v; induction rest as [|x rest IH]; intros v; simpl.
  - split; [lra | constructor].
  - destruct (IH (Rmax v x)) as [H1 H2].
    pose proof (Rmax_l v x). pose proof (Rmax_r v x).
    split; [lra|]. constructor; [lra | exact H2].
Qed.

Lemma fold_Rmin_bounds (rest : vector) (v : R) :
  fold_left Rmin rest v <= v /\ Forall (fun a => fold_left Rmin rest v <= a) rest.
Proof.
  revert v; induction rest as [|x rest IH]; intros v; simpl.
  - split; [lra | constructor].
  - destruct (IH (Rmin v x)) as [H1 H2].
    pose proof (Rmin_l v x). pose proof (Rmin_r v x).
    split; [lra|]. constructor; [lra | exact H2].
Qed.

Lemma fold_Rmax_constant (c : R) (rest : vector) :
  Forall (eq c) rest -> fold_left Rmax rest c = c.
Proof.
  induction 1 as [|x rest <- _ IH]; simpl; [reflexivity|].
  rewrite Rmax_left by lra. exact IH.
Qed.

Lemma fold_Rmin_constant (c : R) (rest : vector) :
  Forall (eq c) rest -> fold_left Rmin rest c = c.
Proof.
  induction 1 as [|x rest <- _ IH]; simpl; [reflexivity|].
  rewrite Rmin_left by lra. exact IH.
Qed.

(** X15. The dynamic range that normalises the MSE and MAE losses is at
    least the difference of any two of the labels it is computed from and
    never below [1e-5]; when all those labels are equal (or there is none) it
    is exactly [1e-5]. *)
Theorem dynamic_range_spread (v : vector) :
  (forall a b, In a v -> In b v -> a - b <= dynamic_range v) /\
  1e-5 <= dynamic_range v /\
  (forall c, Forall (eq c) v -> dynamic_range v = 1e-5).
Proof.
  split; [|split; [apply dynamic_range_positive|]].
  - intros a b Ha Hb. destruct v as [|x rest]; [contradiction|].
    unfold dynamic_range, reduce_max, reduce_min.
    destruct (fold_Rmax_bounds rest x) as [Hx HM].
    destruct (fold_Rmin_bounds rest x) as [Hx' Hm].
    rewrite Forall_forall in HM, Hm.
    assert (Hamax : a <= fold_left Rmax rest x) by (destruct Ha as [<-|Ha]; auto).
    assert (Hbmin : fold_left Rmin rest x <= b) by (destruct Hb as [<-|Hb]; auto).
    pose proof (Rmax_l (fold_left Rmax rest x - fold_left Rmin rest x) 1e-5). lra.
  - intros c Hc. destruct v as [|x rest]; [reflexivity|].
    inversion Hc as [|? ? <- Hrest]; subst.
    unfold dynamic_range, reduce_max, reduce_min.
    rewrite (fold_Rmax_constant _ _ Hrest), (fold_Rmin_constant _ _ Hrest).
    apply Rmax_right. lra.
Qed.

(** ** When the regulariser is defined *)

Lemma reshape_matrices_None (n : nat) (flat : vector) :
  OrthogonalRegularizer.reshape_matrices n flat = None <->
  n = O \/ (length flat mod (n * n))%nat <> O.
Proof.
  unfold OrthogonalRegularizer.reshape_matrices.
  destruct (Nat.eqb_spec n 0) as [Hn|Hn]; [tauto|].
  destruct (Nat.eqb_spec (length flat mod (n * n)) 0) as [Hm|Hm].
  - split; [discriminate | intros [H|H]; contradiction].
  - tauto.
Qed.

Lemma reshape_matrices_shape (n : nat) (flat : vector) (A : tensor3) :
  OrthogonalRegularizer.reshape_matrices n flat = Some A ->
  Forall (fun M => length M = n) A.
Proof.
  unfold OrthogonalRegularizer.reshape_matrices.
  destruct (Nat.eqb n 0); [discriminate|].
  destruct (Nat.eqb (length flat mod (n * n)) 0); [|discriminate].
  intros H. injection H as <-. unfold reshape3.
  apply chunks_rows. apply chunks_length.
Qed.

(** The contraction of [k] matrices of [n] rows has [(k * n) * (k * n)]
    entries. *)
Lemma flatten4_tensordot_length (n : nat) (A : tensor3) :
  Forall (fun M => length M = n) A ->
  length (flatten4 (tensordot_2_2 A A)) = (length A * n * (length A * n))%nat.
Proof.
  intros HA. unfold flatten4, tensordot_2_2.
  set (T := map (fun Ab : matrix =>
                   map (fun row_i : vector =>
                          map (fun Bc : matrix => map (fun row_j => dot row_i row_j) Bc) A)
                       Ab) A).
  assert (H1 : Forall (fun r => length r = n) T).
  { unfold T. apply Forall_map. eapply Forall_impl; [|exact HA].
    intros Ab Hb. simpl. now rewrite length_map. }
  assert (H2 : Forall (Forall (fun e => length e = length A)) T).
  { unfold T. apply Forall_map, Forall_forall. intros Ab _.
    apply Forall_map, Forall_forall. intros row_i _. apply length_map. }
  assert (H3 : Forall (Forall (Forall (fun v : vector => length v = n))) T).
  { unfold T. apply Forall_map, Forall_forall. intros Ab _.
    apply Forall_map, Forall_forall. intros row_i _.
    apply Forall_map. eapply Forall_impl; [|exact HA].
    intros Bc Hc. simpl. now rewrite length_map. }
  assert (E1 : length (concat T) = (length A * n)%nat).
  { rewrite (concat_rows_length n T H1). unfold T. now rewrite length_map. }
  assert (E2 : length (concat (concat T)) = (length (concat T) * length A)%nat).
  { apply concat_rows_length. now apply Forall_concat. }
  assert (E3 : length (concat (concat (concat T))) = (length (concat (concat T)) * n)%nat).
  { apply concat_rows_length. apply Forall_concat. apply Forall_concat.
    eapply Forall_impl; [|exact H3]. intros l Hl. exact Hl. }
  etransitivity; [exact E3|].
  etransitivity;
    [apply (f_equal (fun m => (m * n)%nat)); etransitivity;
     [exact E2 | apply (f_equal (fun m => (m * length A)%nat)); exact E1]|].
  lia.
Qed.

Lemma call_None (self : OrthogonalRegularizer.t) (inputs : vector) :
  OrthogonalRegularizer.__call__ self inputs = None <->
  OrthogonalRegularizer.reshape_matrices (OrthogonalRegularizer.num_features self) inputs
  = None.
Proof.
  unfold OrthogonalRegularizer.__call__.
  set (n := OrthogonalRegularizer.num_features self).
  destruct (OrthogonalRegularizer.reshape_matrices n inputs) as [A|] eqn:EA; [|tauto].
  destruct (OrthogonalRegularizer.reshape_matrices n (flatten4 (tensordot_2_2 A A)))
    as [AAT|] eqn:E2; [split; discriminate|].
  exfalso. apply reshape_matrices_None in E2.
  assert (Hn : n <> O).
  { intros Hn. assert (H : OrthogonalRegularizer.reshape_matrices n inputs = None)
      by (apply reshape_matrices_None; now left). congruence. }
  destruct E2 as [E2|E2]; [contradiction|]. apply E2.
  rewrite (flatten4_tensordot_length n A (reshape_matrices_shape n inputs A EA)).
  replace (length A * n * (length A * n))%nat with (length A * length A * (n * n))%nat
    by lia.
  apply Nat.Div0.mod_mul.
Qed.

(** X16. [OrthogonalRegularizer.__call__] fails exactly on the first reshape:
    when [num_features] is zero or the number of entries of the input is not
    a multiple of [num_features * num_features].  On every other input it
    returns a value; the reshape of the contraction never fails. *)
Theorem OrthogonalRegularizer_call_defined (self : OrthogonalRegularizer.t)
  (inputs : vector) :
  OrthogonalRegularizer.__call__ self inputs = None <->
  OrthogonalRegularizer.num_features self = O \/
  (length inputs
   mod (OrthogonalRegularizer.num_features self * OrthogonalRegularizer.num_features self))%nat
  <> O.
Proof.
  rewrite call_None. apply reshape_matrices_None.
Qed.

(** ** More on rectified_TSSR_Activation *)

(** X17. [rectified_TSSR_Activation] keeps the sign of its argument and never
    enlarges it: a negative [x] is mapped strictly between [x] and 0, a
    positive [x] to a positive value at most [x], and strictly less than [x]
    once [x] exceeds 1. *)
Theorem rectified_TSSR_Activation_damps (x : R) :
  (x < 0 -> x < rectified_TSSR_Activation x < 0) /\
  (0 < x -> 0 < rectified_TSSR_Activation x <= x) /\
  (1 < x -> rectified_TSSR_Activation x < x).
Proof.
  split; [|split].
  - intros H. rewrite (TSSR_negative x H). lra.
  - intros H. destruct (Rlt_dec x 1) as [H1|H1].
    + rewrite (TSSR_small_positive x) by lra. lra.
    + rewrite (TSSR_large_positive x) by lra.
      pose proof (sqrt_ge_1 x ltac:(lra)). pose proof (sqrt_le_self x ltac:(lra)). lra.
  - intros H. rewrite (TSSR_large_positive x) by lra.
    pose proof (sqrt_le_self x ltac:(lra)). lra.
Qed.

(** ** The regulariser on the kernel of a T-Net *)

Lemma kernel_entries (rows width : nat) (K : matrix) :
  length K = rows -> has_width width K -> length (concat K) = (rows * width)%nat.
Proof.
  intros <- Hw. now apply concat_rows_length.
Qed.

(** X18. On a T-Net built with [add_regularization], whose last dense layer
    has a kernel with [size * size] columns, the regularisation loss is
    always defined and never negative, for any number of kernel rows. *)
Theorem TNet_regularization_loss_defined (w : TNet_weights) (size : nat) :
  (0 < size)%nat ->
  has_width (size * size) (kernel (linear (tnet_dense3 w))) ->
  exists v, TNet_regularization_loss w size true = Some v /\ 0 <= v.
Proof.
  intros Hs Hw.
  unfold TNet_regularization_loss, TNet_regularizer, kernel_regularization_loss.
  set (K := kernel (linear (tnet_dense3 w))) in *.
  destruct (OrthogonalRegularizer.__call__ (OrthogonalRegularizer.__init__ size 0.001)
              (concat K)) as [v|] eqn:E.
  - exists v. split; [reflexivity|].
    apply (call_nonneg _ _ v) in E; [exact E|].
    unfold OrthogonalRegularizer.__init__. simpl. lra.
  - exfalso. apply call_None, reshape_matrices_None in E. simpl in E.
    destruct E as [E|E]; [lia|]. apply E.
    rewrite (kernel_entries (length K) (size * size) K eq_refl Hw).
    apply Nat.Div0.mod_mul.
Qed.

Lemma identity_rows_width :
  has_width (2 * 2) (kernel (linear (tnet_dense3 identity_rows_TNet))).
Proof.
  apply Forall_forall. intros r Hr. apply repeat_spec in Hr. now subst r.
Defined.

Lemma TNet_regularization_loss_defined_example :
  (0 < 2)%nat /\
  length (kernel (linear (tnet_dense3 identity_rows_TNet))) = 256%nat /\
  has_width (2 * 2) (kernel (linear (tnet_dense3 identity_rows_TNet))) /\
  exists v, TNet_regularization_loss identity_rows_TNet 2 true = Some v /\ 0 <= v.
Proof.
  split; [apply Nat.lt_0_2|]. split; [apply repeat_length|].
  split; [exact identity_rows_width|].
  exact (TNet_regularization_loss_defined identity_rows_TNet 2 Nat.lt_0_2 identity_rows_width).
Defined.

(** ** The matrix a T-Net predicts and the penalty on its kernel *)

Lemma nth_zero_scale (t : vector) (j : nat) :
  (j < length t)%nat -> nth j (map (fun _ : R => 0) t) 1 = 0.
Proof.
  revert j; induction t as [|v t IH]; intros [|j] H; simpl in *; try lia; auto.
  apply IH. lia.
Qed.

Lemma BatchNormalization_constant (t x : vector) :
  length x = length t -> BatchNormalization (constant_norm t) x = t.
Proof.
  intros Hl. unfold BatchNormalization.
  set (f := fun jv : nat * R => _).
  apply (nth_ext _ _ (f (O, 0)) 0).
  - rewrite length_map, length_combine, length_seq, Nat.min_id. exact Hl.
  - intros i Hi.
    rewrite length_map, length_combine, length_seq, Nat.min_id in Hi.
    rewrite map_nth, combine_nth by apply length_seq.
    rewrite seq_nth by exact Hi. subst f.
    cbn [fst snd constant_norm gamma beta moving_mean moving_variance Nat.add].
    rewrite nth_zero_scale by (rewrite <- Hl; exact Hi).
    unfold Rdiv. rewrite !Rmult_0_l. apply Rplus_0_l.
Qed.

Lemma map_relu_nonneg (t : vector) : Forall (fun v => 0 <= v) t -> map relu t = t.
Proof.
  induction 1 as [|v t Hv _ IH]; simpl; [reflexivity|].
  f_equal; [unfold relu; now apply Rmax_left | exact IH].
Qed.

(** With the last batch normalisation set to the constant [t], the T-Net
    predicts [t], reshaped, on every input and with every kernel. *)
Lemma TNet_constant_norm (w : TNet_weights) (x : matrix) (size : nat) (b : bool)
  (t : vector) :
  length t = (size * size)%nat -> Forall (fun v => 0 <= v) t ->
  TNet (with_final_norm w (constant_norm t)) x size b = chunks size size t.
Proof.
  intros Hl Ht. unfold TNet. cbv zeta. rewrite !dense_block_relu.
  cbn [with_final_norm tnet_dense3 linear norm].
  rewrite BatchNormalization_constant.
  - now rewrite map_relu_nonneg.
  - rewrite Dense_length. symmetry. exact Hl.
Qed.

Lemma eye_flat_length (n : nat) : length (concat (eye n)) = (n * n)%nat.
Proof.
  rewrite (concat_rows_length n) by apply eye_rows. now rewrite eye_length.
Qed.

Lemma eye_flat_nonneg (n : nat) : Forall (fun v => 0 <= v) (concat (eye n)).
Proof.
  apply Forall_concat. unfold eye. apply Forall_map, Forall_forall. intros i _.
  apply Forall_map, Forall_forall. intros j _. cbv beta. destruct (Nat.eqb i j); lra.
Qed.

Lemma zeros_nonneg (n : nat) : Forall (fun v => 0 <= v) (repeat 0 n).
Proof.
  apply Forall_forall. intros v Hv. apply repeat_spec in Hv. lra.
Qed.

Lemma TNet_predicts_identity (w : TNet_weights) (x : matrix) (size : nat) (b : bool) :
  TNet (with_final_norm w (constant_norm (concat (eye size)))) x size b = eye size.
Proof.
  rewrite TNet_constant_norm by (apply eye_flat_length || apply eye_flat_nonneg).
  pose proof (chunks_concat size (eye size) (eye_rows size)) as H.
  now rewrite eye_length in H.
Qed.

Lemma TNet_predicts_zero (w : TNet_weights) (x : matrix) (size : nat) (b : bool) :
  TNet (with_final_norm w (constant_norm (repeat 0 (size * size)))) x size b
  = chunks size size (repeat 0 (size * size)).
Proof.
  apply TNet_constant_norm; [apply repeat_length | apply zeros_nonneg].
Qed.

Lemma eye_not_zero (size : nat) :
  (0 < size)%nat -> ~ Forall (Forall (fun v => v = 0)) (eye size).
Proof.
  intros Hs H. destruct size as [|n]; [lia|].
  unfold eye in H. rewrite <- cons_seq in H. cbn [map] in H.
  inversion H as [|r rs Hr _]. inversion Hr as [|v vs Hv _].
  cbn [Nat.eqb] in Hv. lra.
Qed.

Lemma regularization_loss_defined (K : matrix) (size : nat) :
  (0 < size)%nat -> has_width (size * size) K ->
  exists v,
    OrthogonalRegularizer.__call__ (OrthogonalRegularizer.__init__ size 0.001) (concat K)
    = Some v /\ 0 <= v.
Proof.
  intros Hs Hw.
  destruct (OrthogonalRegularizer.__call__ (OrthogonalRegularizer.__init__ size 0.001)
              (concat K)) as [v|] eqn:E.
  - exists v. split; [reflexivity|].
    apply (call_nonneg _ _ v) in E; [exact E|].
    unfold OrthogonalRegularizer.__init__. simpl. lra.
  - exfalso. apply call_None, reshape_matrices_None in E. simpl in E.
    destruct E as [E|E]; [lia|]. apply E.
    rewrite (kernel_entries (length K) (size * size) K eq_refl Hw).
    apply Nat.Div0.mod_mul.
Qed.

Lemma call_two_shifted_blocks :
  OrthogonalRegularizer.__call__ (OrthogonalRegularizer.__init__ 2 0.001)
    [1; 0; 0; 0; 0; 0; 1; 0] = Some 0.004.
Proof.
  unfold OrthogonalRegularizer.__call__, OrthogonalRegularizer.__init__, reduce_sum,
    reduce_sum1. simpl. unfold dot, reduce_sum1. simpl. f_equal. lra.
Qed.

(** C6, as the code has it.  The penalty that [add_regularization] adds is
    computed from the kernel of the last dense layer alone, so it says
    nothing about the matrix the T-Net predicts: whatever the kernels and the
    input points, changing only the batch normalisation that follows the last
    dense layer makes the prediction exactly the identity, or exactly the
    zero matrix (which is not the identity), and the regularisation loss is
    in both cases the one of the unchanged weights. *)
Theorem TNet_prediction_apart_from_penalty (w : TNet_weights) (x : matrix) (size : nat) :
  TNet (with_final_norm w (constant_norm (concat (eye size)))) x size true = eye size /\
  Forall (Forall (fun v => v = 0))
    (TNet (with_final_norm w (constant_norm (repeat 0 (size * size)))) x size true) /\
  ((0 < size)%nat ->
   TNet (with_final_norm w (constant_norm (repeat 0 (size * size)))) x size true
   <> eye size) /\
  TNet_regularization_loss (with_final_norm w (constant_norm (concat (eye size)))) size true
  = TNet_regularization_loss w size true /\
  TNet_regularization_loss (with_final_norm w (constant_norm (repeat 0 (size * size)))) size true
  = TNet_regularization_loss w size true.
Proof.
  assert (Hz : Forall (Forall (fun v => v = 0))
                 (TNet (with_final_norm w (constant_norm (repeat 0 (size * size))))
                    x size true)).
  { rewrite TNet_predicts_zero. apply chunks_Forall, Forall_forall.
    intros v Hv. now apply repeat_spec in Hv. }
  split; [apply TNet_predicts_identity|]. split; [exact Hz|].
  split; [|split; reflexivity].
  intros Hs E. rewrite E in Hz. exact (eye_not_zero size Hs Hz).
Qed.

(** Two T-Nets with the same (256, 4) kernel, hence the same penalty: one
    predicts the identity and the other the zero matrix on the same event.
    And on a kernel of two rows the penalty is larger at two identity
    matrices than at two matrices that are not the identity. *)
Lemma TNet_same_penalty_identity_or_zero :
  TNet (with_final_norm identity_rows_TNet (constant_norm [1; 0; 0; 1])) example_event 2 true
  = [[1; 0]; [0; 1]] /\
  TNet (with_final_norm identity_rows_TNet (constant_norm [0; 0; 0; 0])) example_event 2 true
  = [[0; 0]; [0; 0]] /\
  (exists v,
     TNet_regularization_loss
       (with_final_norm identity_rows_TNet (constant_norm [1; 0; 0; 1])) 2 true = Some v /\
     TNet_regularization_loss
       (with_final_norm identity_rows_TNet (constant_norm [0; 0; 0; 0])) 2 true = Some v) /\
  OrthogonalRegularizer.__call__ (OrthogonalRegularizer.__init__ 2 0.001)
    [1; 0; 0; 1; 1; 0; 0; 1] = Some 0.008 /\
  OrthogonalRegularizer.__call__ (OrthogonalRegularizer.__init__ 2 0.001)
    [1; 0; 0; 0; 0; 0; 1; 0] = Some 0.004.
Proof.
  split; [exact (TNet_predicts_identity identity_rows_TNet example_event 2 true)|].
  split; [exact (TNet_predicts_zero identity_rows_TNet example_event 2 true)|].
  split; [|split; [apply call_two_identities | apply call_two_shifted_blocks]].
  destruct (regularization_loss_defined
              (kernel (linear (tnet_dense3 identity_rows_TNet))) 2
              Nat.lt_0_2 identity_rows_width) as [v [Hv _]].
  exists v. split; exact Hv.
Qed.

(** ** Masking before the model *)

Lemma nth_zeros (p : vector) (j : nat) : nth j (map (fun _ : R => 0) p) 0 = 0.
Proof.
  revert j; induction p as [|x p IH]; intros [|j]; simpl; auto.
Qed.

(** X19. Were [CustomMaskingLayer] applied to the input first, the model
    would mask padding: on a batch of well-shaped events the layer returns a
    batch the model accepts, and every point whose type is [-1] is then
    predicted exactly zero for every class. *)
Theorem masking_then_model (b num_points num_classes : nat) (w : PointNet_weights)
  (batch : tensor3) :
  has_shape3 b num_points num_features batch ->
  exists masked out,
    CustomMaskingLayer.call batch = Some masked /\
    PointNetSegmentation num_points num_classes w masked = Some out /\
    forall k i event p,
      nth_error batch k = Some event -> nth_error event i = Some p -> last p 0 = -1 ->
      exists row q,
        nth_error out k = Some row /\ nth_error row i = Some q /\
        length q = num_classes /\ Forall (fun o => o = 0) q.
Proof.
  intros Hb.
  assert (Hm : has_shape3 b num_points num_features (tmap masked_point batch))
    by now apply has_shape3_masked.
  exists (tmap masked_point batch),
    (map (segmentation_event num_points num_classes w) (tmap masked_point batch)).
  split; [apply call_masked_points; exact (has_shape3_nonempty b num_points 5 batch Hb)|].
  split; [now apply (PointNetSegmentation_defined b)|].
  intros k i event p Hk Hi Hp.
  assert (Hk' : nth_error (tmap masked_point batch) k = Some (map masked_point event))
    by (unfold tmap; now apply map_nth_error).
  assert (Hi' : nth_error (map masked_point event) i = Some (masked_point p))
    by now apply map_nth_error.
  destruct (PointNetSegmentation_nth b num_points num_classes w _ k i _ _ Hm Hk' Hi')
    as [out [row [scores [Ho [Hr [_ [Hl Hq]]]]]]].
  rewrite (PointNetSegmentation_defined b _ _ _ _ Hm) in Ho. injection Ho as <-.
  exists row, (map (fun s => sigmoid s * nth 4 (masked_point p) 0) scores).
  split; [exact Hr|]. split; [exact Hq|]. split; [now rewrite length_map|].
  apply Forall_map, Forall_forall. intros s _.
  unfold masked_point. rewrite (proj2 (Reqb_true _ _) Hp), nth_zeros. lra.
Qed.

Lemma masking_then_model_example :
  has_shape3 1 2 num_features [example_event] /\
  exists masked out,
    CustomMaskingLayer.call [example_event] = Some masked /\
    PointNetSegmentation 2 1 blank_weights masked = Some out /\
    forall k i event p,
      nth_error [example_event] k = Some event -> nth_error event i = Some p ->
      last p 0 = -1 ->
      exists row q,
        nth_error out k = Some row /\ nth_error row i = Some q /\
        length q = 1%nat /\ Forall (fun o => o = 0) q.
Proof.
  split; [exact example_event_shape|].
  exact (masking_then_model 1 2 1 blank_weights [example_event] example_event_shape).
Defined.

(** ** SaveModel *)

Module SaveModelFacts.
Import Ascii String PythonFormat.
Local Open Scope string_scope.

(** A named field is looked up among the keyword arguments only. *)
Lemma format_named_field_missing (args : list string) :
  format "JetPointNet_{epoch}.hd5" args [] = inl (KeyError "epoch").
Proof.
  reflexivity.
Qed.

(** X20. [SaveModel.on_epoch_end] never reaches [self.model.save]: the
    template names its field [{epoch}] while the epoch is passed
    positionally, so [str.format] raises [KeyError('epoch')] at every epoch.
    Passed by keyword, the same template gives [JetPointNet_<epoch>.hd5]. *)
Theorem on_epoch_end_raises (epoch : nat) :
  SaveModel.on_epoch_end epoch = inl (KeyError "epoch") /\
  format "JetPointNet_{epoch}.hd5" [] [("epoch", str epoch)]
  = inr ("JetPointNet_" ++ str epoch ++ ".hd5").
Proof.
  split; [apply format_named_field_missing | reflexivity].
Qed.

End SaveModelFacts.
